(** * Resume_builder: the optimistic job store and its satellites

    A shallow embedding of the state-synchronisation core of the
    application: the job collection owned by [App] (optimistic add,
    update, delete against the remote store), the list partitioner and
    the regeneration controller of [JobTracker], the status-transition
    notifier with its unread badge, the generation service wrappers and
    the debounced resume autosave.

    React state is modelled by explicit state passing over one record
    per component ([App.State], [JobTracker.State]). A handler of [App]
    that awaits the remote store is split at the [await]: the part that
    runs before the call is issued, and the part that runs once the call
    has settled, so that the states a reader can observe in between are
    values of the model. What the outside world answers (the store, the
    model call) and what [Date.now()] reads are arguments of the
    handlers. *)

From stdpp Require Import ssreflect base decidable option list strings pretty sorting relations gmap.
From Stdlib Require Import NArith Lia Ascii.

Local Open Scope string_scope.
Local Open Scope list_scope.

(** ** types.ts *)

Inductive JobStatus := APPLIED | INTERVIEW | OFFER | REJECTED | DRAFT | ACCEPTED.

#[global] Instance JobStatus_eq_dec : EqDecision JobStatus.
Proof. solve_decision. Defined.

(** The string value of each enum member, as sent to the store. *)
Definition JobStatus_value (st : JobStatus) : string :=
  match st with
  | APPLIED => "Applied"
  | INTERVIEW => "Interview"
  | OFFER => "Offer"
  | REJECTED => "Rejected"
  | DRAFT => "Draft"
  | ACCEPTED => "Accepted"
  end.

Definition all_statuses : list JobStatus :=
  [APPLIED; INTERVIEW; OFFER; REJECTED; DRAFT; ACCEPTED].

(** [origin?: 'application' | 'offer'] *)
Inductive Origin := application | offer.

#[global] Instance Origin_eq_dec : EqDecision Origin.
Proof. solve_decision. Defined.

Inductive ViewState := DASHBOARD | JOBS | OFFERS | RESUME | AVATAR | CLAIRE.

#[global] Instance ViewState_eq_dec : EqDecision ViewState.
Proof. solve_decision. Defined.

Module Job.

Record t := mk {
  id : string;
  company : string;
  role : string;
  location : string;
  salary : string;
  status : JobStatus;
  dateApplied : string;
  description : string;
  coverLetter : string;
  interviewGuide : option string;   (* interviewGuide?: string *)
  email : string;
  origin : option Origin            (* origin?: 'application' | 'offer' *)
}.

(** [{ ...job, id: x }] *)
Definition with_id (x : string) (j : t) : t :=
  mk x (company j) (role j) (location j) (salary j) (status j) (dateApplied j)
     (description j) (coverLetter j) (interviewGuide j) (email j) (origin j).

(** [{ ...job, status: st }] *)
Definition with_status (st : JobStatus) (j : t) : t :=
  mk (id j) (company j) (role j) (location j) (salary j) st (dateApplied j)
     (description j) (coverLetter j) (interviewGuide j) (email j) (origin j).

(** [{ ...job, coverLetter: c }] *)
Definition with_coverLetter (c : string) (j : t) : t :=
  mk (id j) (company j) (role j) (location j) (salary j) (status j) (dateApplied j)
     (description j) c (interviewGuide j) (email j) (origin j).

(** [{ ...job, interviewGuide: g }] *)
Definition with_interviewGuide (g : string) (j : t) : t :=
  mk (id j) (company j) (role j) (location j) (salary j) (status j) (dateApplied j)
     (description j) (coverLetter j) (Some g) (email j) (origin j).

End Job.

Inductive MessageRole := user | model.

Module Message.

Record t := mk {
  id : string;
  role : MessageRole;
  text : string
}.

End Message.

Module ResumeSection.

Record t := mk {
  id : string;
  title : string;
  company : string;
  date : string;
  details : string
}.

End ResumeSection.

Module Project.

Record t := mk {
  id : string;
  name : string;
  technologies : string;
  link : string;
  description : string
}.

End Project.

Module Resume.

Record t := mk {
  fullName : string;
  email : string;
  phone : string;
  summary : string;
  skills : string;
  experience : list ResumeSection.t;
  education : list ResumeSection.t;
  projects : list Project.t;
  avatar : option string
}.

(** The state [useState<Resume>] starts from. *)
Definition initial : t := mk "" "" "" "" "" [] [] [] None.

End Resume.

(** ** JavaScript values the handlers inspect *)

(** [x || y] and [!x] on a string: the empty string is falsy. *)
Definition truthy (x : string) : bool := bool_decide (x ≠ "").

Definition or_else (x y : string) : string := if truthy x then x else y.

(** [x || y] where [x] may be [undefined]. *)
Definition opt_or_else (x : option string) (y : string) : string :=
  match x with
  | Some v => or_else v y
  | None => y
  end.

(** [Date.now().toString()]: the clock is a count of milliseconds. *)
Definition Date_now_toString (now : N) : string := pretty now.

(** How a statement completes: normally, or by throwing. *)
Inductive Completion (A : Type) :=
| Returned (a : A)
| Thrown (e : string).

Arguments Returned {A} a.
Arguments Thrown {A} e.

#[global] Instance Completion_bind : MBind Completion :=
  λ A B k c, match c with Returned a => k a | Thrown e => Thrown e end.

(** [try { body } catch (e) { handler }] *)
Definition try_catch {A} (body : Completion A) (handler : string → Completion A)
    : Completion A :=
  match body with
  | Returned a => Returned a
  | Thrown e => handler e
  end.

(** How an awaited promise settles. *)
Inductive Settled (A : Type) :=
| Fulfilled (value : A)
| Rejected (reason : string).

Arguments Fulfilled {A} value.
Arguments Rejected {A} reason.

(** What a query of the remote store resolves to: [{ data, error }]. *)
Record PostgrestResponse (A : Type) := mkResponse {
  data : option A;
  error : option string
}.

Arguments mkResponse {A} data error.
Arguments data {A} _.
Arguments error {A} _.

(** The row the store hands back after an insert; only [data.id] is read. *)
Record InsertedRow := mkRow { row_id : string }.

(** ** The timer queue of the host (setTimeout / clearTimeout) *)

Record Timer := mkTimer {
  timer_id : nat;
  deadline : N;
  (* the only callback ever scheduled is [saveResumeToSupabase(resume)],
     closed over the resume of the render that scheduled it *)
  callback_resume : Resume.t
}.

(** Timeouts run in the order of their deadlines. *)
Definition earlier (a b : Timer) : Prop := (deadline a ≤ deadline b)%N.

#[global] Instance earlier_dec : RelDecision earlier.
Proof. intros a b. unfold earlier. apply _. Defined.

(** ** App *)

Module App.

Record State := mkState {
  (* React state of the component *)
  session : option string;
  currentView : ViewState;
  jobs : list Job.t;
  claireMessages : list Message.t;
  unreadClaire : bool;
  resume : Resume.t;
  (* the world around it *)
  console : list (string * string);      (* console.error(label, error) *)
  timers : list Timer;                   (* pending timeouts *)
  nextTimer : nat;                       (* next id setTimeout returns *)
  autosaveCleanup : option nat;          (* timer the effect's cleanup clears *)
  saved : list Resume.t                  (* calls of saveResumeToSupabase *)
}.

Definition welcome : Message.t :=
  Message.mk "welcome" model
    "Hi there! I'm Claire, your personal job search assistant. How can I help you land your dream job today?".

Definition initial : State :=
  mkState None DASHBOARD [] [welcome] false Resume.initial [] [] 0 None [].

(** [setJobs(prev => f prev)] *)
Definition setJobs (f : list Job.t → list Job.t) (s : State) : State :=
  mkState (session s) (currentView s) (f (jobs s)) (claireMessages s)
          (unreadClaire s) (resume s) (console s) (timers s) (nextTimer s)
          (autosaveCleanup s) (saved s).

(** [setClaireMessages(prev => f prev)] *)
Definition setClaireMessages (f : list Message.t → list Message.t) (s : State) : State :=
  mkState (session s) (currentView s) (jobs s) (f (claireMessages s))
          (unreadClaire s) (resume s) (console s) (timers s) (nextTimer s)
          (autosaveCleanup s) (saved s).

Definition setUnreadClaire (b : bool) (s : State) : State :=
  mkState (session s) (currentView s) (jobs s) (claireMessages s)
          b (resume s) (console s) (timers s) (nextTimer s)
          (autosaveCleanup s) (saved s).

Definition console_error (label err : string) (s : State) : State :=
  mkState (session s) (currentView s) (jobs s) (claireMessages s)
          (unreadClaire s) (resume s) (console s ++ [(label, err)]) (timers s)
          (nextTimer s) (autosaveCleanup s) (saved s).

(** *** handleAddJob *)

(** The [try] block of [handleAddJob] up to [data.id]: a rejected
    promise throws, [if (error) throw error] throws, and reading [id]
    of a null [data] throws. *)
Definition insert_result (r : Settled (PostgrestResponse InsertedRow)) : Completion string :=
  match r with
  | Rejected e => Thrown e
  | Fulfilled resp =>
      match error resp with
      | Some e => Thrown e
      | None =>
          match data resp with
          | Some row => Returned (row_id row)
          | None => Thrown "TypeError: Cannot read properties of null (reading 'id')"
          end
      end
  end.

(** Before the [await]: the optimistic insert. *)
Definition handleAddJob_optimistic (now : N) (job : Job.t) (s : State) : State :=
  let tempId := Date_now_toString now in
  let optimisticJob := Job.with_id tempId job in
  setJobs (λ prev, optimisticJob :: prev) s.

(** After the [await]: swap in the real record, or revert. *)
Definition handleAddJob_settle (now : N) (job : Job.t)
    (r : Settled (PostgrestResponse InsertedRow)) (s : State) : State :=
  let tempId := Date_now_toString now in
  match insert_result r with
  | Returned data_id =>
      let realJob := Job.with_id data_id job in
      setJobs (fmap (λ j, if decide (Job.id j = tempId) then realJob else j)) s
  | Thrown err =>
      setJobs (filter (λ j, Job.id j ≠ tempId)) (console_error "Error adding job" err s)
  end.

(** The whole handler when nothing else touches the state meanwhile. *)
Definition handleAddJob (now : N) (job : Job.t)
    (r : Settled (PostgrestResponse InsertedRow)) (s : State) : State :=
  handleAddJob_settle now job r (handleAddJob_optimistic now job s).

(** *** The two message templates *)

Definition acceptedText (job : Job.t) : string :=
  "ðŸŽ‰ Congratulations! I noticed you accepted an offer for the **" +:+ Job.role job +:+
  "** position at **" +:+ Job.company job +:+
  "**! That is absolutely fantastic news! Do you need any tips on salary negotiation or preparing for your first day?".

Definition rejectedText (job : Job.t) : string :=
  "I saw the update about the **" +:+ Job.role job +:+
  "** role at **" +:+ Job.company job +:+
  "**. I know that can be disappointing, but don't let it discourage you. Rejection is often just redirection. ðŸ¦ Would you like to analyze the job description together to see if there are any skills we can highlight better for next time?".

(** *** handleJobStatusChangeNotification

    The handler reads [currentView] from the closure of the render that
    created it ([render]); its state updates apply to the state at the
    time it runs ([s]). *)

Definition handleJobStatusChangeNotification (render : State) (now : N)
    (job : Job.t) (newStatus : JobStatus) (s : State) : State :=
  if decide (newStatus = ACCEPTED ∨ newStatus = REJECTED) then
    let messageText :=
      if decide (newStatus = ACCEPTED) then acceptedText job
      else if decide (newStatus = REJECTED) then rejectedText job
      else "" in
    if truthy messageText then
      let newMessage := Message.mk (Date_now_toString now) model messageText in
      let s1 := setClaireMessages (λ prev, prev ++ [newMessage]) s in
      if decide (currentView render ≠ CLAIRE) then setUnreadClaire true s1 else s1
    else s
  else s.

(** *** handleUpdateJob *)

(** [jobs.find(j => j.id === x)] *)
Definition find_job (x : string) (l : list Job.t) : option Job.t :=
  snd <$> list_find (λ j, Job.id j = x) l.

(** Before the [await]: the optimistic replacement and the status-change
    check. [jobs.find] reads the closure's [jobs], the collection as it
    was rendered, not the one [setJobs] has just produced. *)
Definition handleUpdateJob_optimistic (render : State) (now : N) (job : Job.t)
    (s : State) : State :=
  let s1 := setJobs (fmap (λ j, if decide (Job.id j = Job.id job) then job else j)) s in
  match find_job (Job.id job) (jobs render) with
  | Some oldJob =>
      if decide (Job.status oldJob ≠ Job.status job)
      then handleJobStatusChangeNotification render now job (Job.status job) s1
      else s1
  | None => s1
  end.

(** After the [await]: the response is not inspected; only a rejected
    promise reaches the [catch]. *)
Definition handleUpdateJob_settle {A} (r : Settled (PostgrestResponse A))
    (s : State) : State :=
  match r with
  | Fulfilled _ => s
  | Rejected err => console_error "Error updating job" err s
  end.

(** The handler of the current render, run without interruption. *)
Definition handleUpdateJob {A} (now : N) (job : Job.t)
    (r : Settled (PostgrestResponse A)) (s : State) : State :=
  handleUpdateJob_settle r (handleUpdateJob_optimistic s now job s).

(** *** handleDeleteJob *)

Definition handleDeleteJob_optimistic (x : string) (s : State) : State :=
  setJobs (filter (λ j, Job.id j ≠ x)) s.

Definition handleDeleteJob_settle {A} (r : Settled (PostgrestResponse A))
    (s : State) : State :=
  match r with
  | Fulfilled _ => s
  | Rejected err => console_error "Error deleting job" err s
  end.

Definition handleDeleteJob {A} (x : string)
    (r : Settled (PostgrestResponse A)) (s : State) : State :=
  handleDeleteJob_settle r (handleDeleteJob_optimistic x s).

(** *** The active view and the unread badge *)

(** The effect with dependency [currentView]. *)
Definition clearUnreadEffect (s : State) : State :=
  if decide (currentView s = CLAIRE) then setUnreadClaire false s else s.

(** [setCurrentView(v)] followed by the render it causes. Setting the
    state to the value it already has causes no render and no effect. *)
Definition setCurrentView (v : ViewState) (s : State) : State :=
  if decide (v = currentView s) then s
  else
    clearUnreadEffect
      (mkState (session s) v (jobs s) (claireMessages s) (unreadClaire s)
               (resume s) (console s) (timers s) (nextTimer s)
               (autosaveCleanup s) (saved s)).

(** *** Timers and the autosave effect *)

(** Time passes up to [now]: every timeout that is due runs, earliest
    deadline first. The callback is [saveResumeToSupabase(resume)]. *)
Definition advance (now : N) (s : State) : State :=
  let due := filter (λ t, (deadline t ≤ now)%N) (timers s) in
  let fired := merge_sort earlier due in
  mkState (session s) (currentView s) (jobs s) (claireMessages s)
          (unreadClaire s) (resume s) (console s)
          (filter (λ t, ¬ (deadline t ≤ now)%N) (timers s)) (nextTimer s)
          (autosaveCleanup s) (saved s ++ (callback_resume <$> fired)).

(** [clearTimeout(tid)] *)
Definition clearTimeout (tid : nat) (l : list Timer) : list Timer :=
  filter (λ t, timer_id t ≠ tid) l.

(** The effect with dependencies [resume, session], run at time [now]:
    first the cleanup the previous run returned, then the body. *)
Definition autosaveEffect (now : N) (s : State) : State :=
  let pending :=
    match autosaveCleanup s with
    | Some tid => clearTimeout tid (timers s)
    | None => timers s
    end in
  if negb (bool_decide (is_Some (session s))) || negb (truthy (Resume.fullName (resume s)))
  then
    (* [return;]: nothing scheduled, no cleanup returned *)
    mkState (session s) (currentView s) (jobs s) (claireMessages s)
            (unreadClaire s) (resume s) (console s) pending (nextTimer s)
            None (saved s)
  else
    let tid := nextTimer s in
    mkState (session s) (currentView s) (jobs s) (claireMessages s)
            (unreadClaire s) (resume s) (console s)
            (pending ++ [mkTimer tid (now + 2000)%N (resume s)]) (S tid)
            (Some tid) (saved s).

(** [setResume(prev => f prev)] at time [now], and the render and
    effect it causes. The updater always builds a new object, so the
    dependency [resume] always changes. *)
Definition setResume (now : N) (f : Resume.t → Resume.t) (s : State) : State :=
  let s0 := advance now s in
  autosaveEffect now
    (mkState (session s0) (currentView s0) (jobs s0) (claireMessages s0)
             (unreadClaire s0) (f (resume s0)) (console s0) (timers s0)
             (nextTimer s0) (autosaveCleanup s0) (saved s0)).

(** [setSession(x)] at time [now]. *)
Definition setSession (now : N) (x : option string) (s : State) : State :=
  let s0 := advance now s in
  autosaveEffect now
    (mkState x (currentView s0) (jobs s0) (claireMessages s0)
             (unreadClaire s0) (resume s0) (console s0) (timers s0)
             (nextTimer s0) (autosaveCleanup s0) (saved s0)).

(** A burst of resume mutations: each is issued [gap] milliseconds after
    the previous one (the first, [gap] after [start]). Returns the state
    and the time of the last mutation. *)
Fixpoint burst (start : N) (edits : list (N * (Resume.t → Resume.t)))
    (s : State) : N * State :=
  match edits with
  | [] => (start, s)
  | (gap, f) :: rest => burst (start + gap) rest (setResume (start + gap) f s)
  end.

End App.

(** ** services/geminiService

    The model call is the outside world: it settles with a response
    whose [text] may be undefined, or it rejects. The arguments only
    shape the prompt. Both wrappers catch every failure themselves (the
    [console.error] of their [catch] is not recorded). *)

Module GeminiService.

Definition generateCoverLetter (company role description : string)
    (response : Settled (option string)) : Completion string :=
  match response with
  | Fulfilled text =>
      Returned (opt_or_else text "Could not generate cover letter. Please try again.")
  | Rejected _ =>
      Returned "Error generating cover letter. Please check your API key."
  end.

Definition generateInterviewGuide (company role description : string)
    (response : Settled (option string)) : Completion string :=
  match response with
  | Fulfilled text =>
      Returned (opt_or_else text "Could not generate interview guide. Please try again.")
  | Rejected _ =>
      Returned "Error generating interview guide. Please check your API key."
  end.

End GeminiService.

(** ** components/JobTracker *)

Module JobTracker.

Inductive ViewMode := applications | offers.

#[global] Instance ViewMode_eq_dec : EqDecision ViewMode.
Proof. solve_decision. Defined.

Definition isOffersMode (viewMode : ViewMode) : bool :=
  bool_decide (viewMode = offers).

(** [job.origin || (job.status === JobStatus.OFFER ? 'offer' : 'application')] *)
Definition originOrLegacy (job : Job.t) : Origin :=
  match Job.origin job with
  | Some o => o
  | None => if decide (Job.status job = OFFER) then offer else application
  end.

(** The callback of [jobs.filter] in the component body. *)
Definition keepsJob (viewMode : ViewMode) (job : Job.t) : bool :=
  let origin := originOrLegacy job in
  if isOffersMode viewMode
  then bool_decide (origin = offer)
  else bool_decide (origin = application).

(** The list a tracker in mode [viewMode] shows. *)
Definition displayedJobs (viewMode : ViewMode) (jobs : list Job.t) : list Job.t :=
  filter (λ job, keepsJob viewMode job) jobs.

Definition isJobOfferType (job : Job.t) : bool :=
  bool_decide (Job.origin job = Some offer) || bool_decide (Job.status job = OFFER).

(** The form state [Partial<Job>]. [status] is set by the initial state
    and kept by every later update, so it is never missing. *)
Record NewJob := mkNewJob {
  company : option string;
  role : option string;
  location : option string;
  salary : option string;
  email : option string;
  description : option string;
  status : JobStatus
}.

Definition defaultStatus (viewMode : ViewMode) : JobStatus :=
  if isOffersMode viewMode then OFFER else APPLIED.

Record State := mkState {
  showAddModal : bool;
  selectedJob : option Job.t;
  newJob : NewJob;
  isGenerating : bool;
  alerts : list string              (* window.alert(message) *)
}.

Definition initial (viewMode : ViewMode) : State :=
  mkState false None
    (mkNewJob None None None None None (Some "") (defaultStatus viewMode))
    false [].

Definition setSelectedJob (j : option Job.t) (jt : State) : State :=
  mkState (showAddModal jt) j (newJob jt) (isGenerating jt) (alerts jt).

Definition alert (msg : string) (jt : State) : State :=
  mkState (showAddModal jt) (selectedJob jt) (newJob jt) (isGenerating jt)
          (alerts jt ++ [msg]).

(** The content pane of the detail panel. *)
Definition activeContent (job : Job.t) : option string :=
  if isJobOfferType job then Job.interviewGuide job else Some (Job.coverLetter job).

Definition displayContent (jt : State) : option string :=
  selectedJob jt ≫= activeContent.

(** *** handleCreateJob *)

(** The [try]/[catch] around the generation call: the pair
    [(coverLetter, interviewGuide)] the record is built with. *)
Definition generatedContent (viewMode : ViewMode) (company role : string)
    (description : option string) (response : Settled (option string))
    : string * string :=
  let attempt :=
    if isOffersMode viewMode
    then GeminiService.generateInterviewGuide company role
           (opt_or_else description "General Role") response
    else GeminiService.generateCoverLetter company role
           (opt_or_else description "General Application") response in
  match attempt with
  | Returned text => if isOffersMode viewMode then ("", text) else (text, "")
  | Thrown _ =>
      if isOffersMode viewMode
      then ("", "Error generating interview guide.")
      else ("Error generating cover letter.", "")
  end.

Definition jobToAdd (viewMode : ViewMode) (today : string) (company role : string)
    (form : NewJob) (response : Settled (option string)) : Job.t :=
  let content := generatedContent viewMode company role (description form) response in
  Job.mk "" company role
    (opt_or_else (location form) "Remote")
    (opt_or_else (salary form) "Negotiable")
    (status form)
    today
    (opt_or_else (description form) "")
    content.1
    (Some content.2)
    (opt_or_else (email form) "")
    (Some (if isOffersMode viewMode then offer else application)).

Definition opt_truthy (x : option string) : bool :=
  match x with
  | Some v => truthy v
  | None => false
  end.

(** The form after a successful submission. *)
Definition resetForm (viewMode : ViewMode) : NewJob :=
  mkNewJob (Some "") (Some "") (Some "") (Some "") (Some "") (Some "")
           (defaultStatus viewMode).

Definition handleCreateJob (viewMode : ViewMode) (today : string) (now : N)
    (response : Settled (option string))
    (r : Settled (PostgrestResponse InsertedRow))
    (jt : State) (app : App.State) : Completion (State * App.State) :=
  if negb (opt_truthy (company (newJob jt))) || negb (opt_truthy (role (newJob jt)))
  then Returned (jt, app)
  else
    let job := jobToAdd viewMode today
                 (default "" (company (newJob jt))) (default "" (role (newJob jt)))
                 (newJob jt) response in
    let app' := App.handleAddJob now job r app in
    Returned (mkState false (selectedJob jt) (resetForm viewMode) false (alerts jt), app').

(** *** handleDeleteJob, handleStatusChange *)

Definition handleDeleteJob {A} (jobId : string)
    (r : Settled (PostgrestResponse A)) (jt : State) (app : App.State)
    : State * App.State :=
  let app' := App.handleDeleteJob jobId r app in
  match selectedJob jt with
  | Some sel =>
      if decide (Job.id sel = jobId) then (setSelectedJob None jt, app') else (jt, app')
  | None => (jt, app')
  end.

Definition handleStatusChange {A} (now : N) (jobId : string) (newStatus : JobStatus)
    (r : Settled (PostgrestResponse A)) (jt : State) (app : App.State)
    : State * App.State :=
  match App.find_job jobId (App.jobs app) with
  | Some jobToUpdate =>
      let updatedJob := Job.with_status newStatus jobToUpdate in
      let app' := App.handleUpdateJob now updatedJob r app in
      match selectedJob jt with
      | Some sel =>
          if decide (Job.id sel = jobId)
          then (setSelectedJob (Some updatedJob) jt, app')
          else (jt, app')
      | None => (jt, app')
      end
  | None => (jt, app)
  end.

(** *** handleRegenerate *)

Definition handleRegenerate {A} (now : N) (response : Settled (option string))
    (r : Settled (PostgrestResponse A)) (jt : State) (app : App.State)
    : Completion (State * App.State) :=
  match selectedJob jt with
  | None => Returned (jt, app)
  | Some sel =>
      let isGuide := isJobOfferType sel in
      try_catch
        (if isGuide then
           newContent ← GeminiService.generateInterviewGuide
                          (Job.company sel) (Job.role sel) (Job.description sel) response;
           let updatedJob := Job.with_interviewGuide newContent sel in
           let app' := App.handleUpdateJob now updatedJob r app in
           Returned (setSelectedJob (Some updatedJob) jt, app')
         else
           newContent ← GeminiService.generateCoverLetter
                          (Job.company sel) (Job.role sel) (Job.description sel) response;
           let updatedJob := Job.with_coverLetter newContent sel in
           let app' := App.handleUpdateJob now updatedJob r app in
           Returned (setSelectedJob (Some updatedJob) jt, app'))
        (λ e, Returned (alert "Failed to regenerate content." jt,
                        App.console_error "Regeneration failed" e app))
  end.

End JobTracker.

(** ** App, continued: the rows of the remote store, fetchData,
    handleAttachAvatar *)

Module AppData.

(** The columns of table [jobs] other than [id], under the names the
    queries use. *)
Record JobColumns := mkJobColumns {
  company : string;
  role : string;
  location : string;
  salary : string;
  status : JobStatus;
  date_applied : string;
  description : string;
  cover_letter : string;
  interview_guide : option string;
  email : string;
  origin : option Origin;
  user_id : option string
}.

Record JobRow := mkJobRow {
  id : string;
  columns : JobColumns
}.

(** The object [handleAddJob] passes to [insert]. *)
Definition insertColumns (session : option string) (job : Job.t) : JobColumns :=
  mkJobColumns (Job.company job) (Job.role job) (Job.location job) (Job.salary job)
    (Job.status job) (Job.dateApplied job) (Job.description job)
    (Job.coverLetter job) (Job.interviewGuide job) (Job.email job)
    (Job.origin job) session.

(** The callback of [(jobsData || []).map] in [fetchData]. *)
Definition mappedJob (j : JobRow) : Job.t :=
  Job.mk (id j) (company (columns j)) (role (columns j)) (location (columns j))
    (salary (columns j)) (status (columns j)) (date_applied (columns j))
    (description (columns j)) (cover_letter (columns j))
    (interview_guide (columns j)) (email (columns j)) (origin (columns j)).

(** A row of table [resumes]; the three lists may be null. *)
Record ResumeRow := mkResumeRow {
  full_name : string;
  r_email : string;
  phone : string;
  summary : string;
  skills : string;
  experience : option (list ResumeSection.t);
  education : option (list ResumeSection.t);
  projects : option (list Project.t);
  avatar : option string;
  r_user_id : option string
}.

(** The [payload] of [saveResumeToSupabase]. *)
Definition resumePayload (session : option string) (currentResume : Resume.t) : ResumeRow :=
  mkResumeRow (Resume.fullName currentResume) (Resume.email currentResume)
    (Resume.phone currentResume) (Resume.summary currentResume)
    (Resume.skills currentResume) (Some (Resume.experience currentResume))
    (Some (Resume.education currentResume)) (Some (Resume.projects currentResume))
    (Resume.avatar currentResume) session.

(** The object [fetchData] passes to [setResume]. *)
Definition fetchedResume (resumeData : ResumeRow) : Resume.t :=
  Resume.mk (full_name resumeData) (r_email resumeData) (phone resumeData)
    (summary resumeData) (skills resumeData)
    (default [] (experience resumeData)) (default [] (education resumeData))
    (default [] (projects resumeData)) (avatar resumeData).

(** [fetchData] at time [now]: the jobs query, then the resume query.
    An error of the jobs query (thrown, or carried by the response) ends
    the function in its [catch]; the error of the resume query is not
    looked at. The [loading] flag is not part of the state here. *)
Definition fetchData (now : N)
    (jobsQuery : Settled (PostgrestResponse (list JobRow)))
    (resumeQuery : Settled (PostgrestResponse ResumeRow))
    (s : App.State) : App.State :=
  match jobsQuery with
  | Rejected e => App.console_error "Error fetching data:" e s
  | Fulfilled jobsResp =>
      match error jobsResp with
      | Some e => App.console_error "Error fetching data:" e s
      | None =>
          let mappedJobs := mappedJob <$> default [] (data jobsResp) in
          let s1 := App.setJobs (λ _, mappedJobs) s in
          match resumeQuery with
          | Rejected e => App.console_error "Error fetching data:" e s1
          | Fulfilled resumeResp =>
              match data resumeResp with
              | Some resumeData => App.setResume now (λ _, fetchedResume resumeData) s1
              | None => s1
              end
          end
      end
  end.

(** [handleAttachAvatar(avatarUrl)] of [App], at time [now]. *)
Definition attachAvatar (avatarUrl : string) (prev : Resume.t) : Resume.t :=
  Resume.mk (Resume.fullName prev) (Resume.email prev) (Resume.phone prev)
    (Resume.summary prev) (Resume.skills prev) (Resume.experience prev)
    (Resume.education prev) (Resume.projects prev) (Some avatarUrl).

Definition handleAttachAvatar (now : N) (avatarUrl : string) (s : App.State) : App.State :=
  App.setResume now (attachAvatar avatarUrl) s.

End AppData.

(** ** components/Dashboard *)

Module Dashboard.

Inductive TimeRange := range_7d | range_30d | range_all.

#[global] Instance TimeRange_eq_dec : EqDecision TimeRange.
Proof. solve_decision. Defined.

(** The callback of the [totalApplied] filter. *)
Definition countsAsApplied (j : Job.t) : bool :=
  bool_decide (Job.origin j = Some application)
  || (bool_decide (Job.origin j = None)
      && bool_decide (Job.status j ≠ OFFER)
      && bool_decide (Job.status j ≠ ACCEPTED)).

Definition totalApplied (jobs : list Job.t) : nat :=
  length (filter (λ j, countsAsApplied j) jobs).

(** [jobs.filter(j => j.status === st).length] *)
Definition withStatus (st : JobStatus) (jobs : list Job.t) : nat :=
  length (filter (λ j, Job.status j = st) jobs).

Definition interviewing (jobs : list Job.t) : nat := withStatus INTERVIEW jobs.
Definition offers (jobs : list Job.t) : nat := withStatus OFFER jobs.
Definition rejected (jobs : list Job.t) : nat := withStatus REJECTED jobs.
Definition accepted (jobs : list Job.t) : nat := withStatus ACCEPTED jobs.

Definition acceptedJobs (jobs : list Job.t) : list Job.t :=
  filter (λ j, Job.status j = ACCEPTED) jobs.

Definition statusData (jobs : list Job.t) : list (string * nat) :=
  [ ("Applied", withStatus APPLIED jobs);
    ("Interview", interviewing jobs);
    ("Offer", offers jobs);
    ("Accepted", accepted jobs);
    ("Rejected", rejected jobs) ].

(** [Math.max(...statusData.map(d => d.count), 1)] *)
Definition maxStatusCount (jobs : list Job.t) : nat :=
  max_list ((snd <$> statusData jobs) ++ [1]).

(** *** activityData *)

Definition daysToLookBack (timeRange : TimeRange) : nat :=
  match timeRange with
  | range_7d => 7
  | range_30d => 30
  | range_all => 90
  end.

(** [m[d] = (m[d] || 0) + 1] *)
Definition bump (d : string) (m : gmap string nat) : gmap string nat :=
  <[d := default 0 (m !! d) + 1]> m.

(** [isApp] of the [forEach] callback. *)
Definition isApp (job : Job.t) : bool :=
  bool_decide (Job.origin job = Some application)
  || (bool_decide (Job.origin job = None) && bool_decide (Job.status job ≠ OFFER)).

Definition isOfferish (job : Job.t) : bool :=
  bool_decide (Job.status job = OFFER) || bool_decide (Job.status job = ACCEPTED).

(** One turn of [jobs.forEach] on the pair [(appsByDate, offersByDate)]. *)
Definition tallyJob (acc : gmap string nat * gmap string nat) (job : Job.t)
    : gmap string nat * gmap string nat :=
  if truthy (Job.dateApplied job) then
    ((if isApp job then bump (Job.dateApplied job) acc.1 else acc.1),
     (if isOfferish job then bump (Job.dateApplied job) acc.2 else acc.2))
  else acc.

Definition tally (jobs : list Job.t) : gmap string nat * gmap string nat :=
  foldl tallyJob (∅, ∅) jobs.

(** What the calendar says of the day [i] days before today: the two
    labels [toLocaleDateString] gives and the [YYYY-MM-DD] string. *)
Record Day := mkDay {
  weekday : string;
  monthDay : string;
  dateString : string
}.

Record Point := mkPoint {
  name : string;
  apps : nat;
  offersThatDay : nat;
  fullDate : string
}.

(** The [for] loop, from [daysToLookBack - 1] days ago down to today. *)
Definition activityData (timeRange : TimeRange) (calendar : nat → Day)
    (jobs : list Job.t) : list Point :=
  let counts := tally jobs in
  (λ i,
     let d := calendar i in
     let displayDay :=
       if decide (timeRange ≠ range_7d) then monthDay d else weekday d in
     mkPoint displayDay
       (default 0 (counts.1 !! dateString d))
       (default 0 (counts.2 !! dateString d))
       (dateString d))
  <$> reverse (seq 0 (daysToLookBack timeRange)).

End Dashboard.

(** ** components/ResumeBuilder *)

Module ResumeBuilder.

Inductive Section := experience | education | projects.

#[global] Instance Section_eq_dec : EqDecision Section.
Proof. solve_decision. Defined.

(** The keys [updateField] is called with. *)
Inductive Field := fullName | email | phone | summary | skills.

(** [{ ...prev, [field]: value }] *)
Definition updateField (field : Field) (value : string) (prev : Resume.t) : Resume.t :=
  Resume.mk
    (if field is fullName then value else Resume.fullName prev)
    (if field is email then value else Resume.email prev)
    (if field is phone then value else Resume.phone prev)
    (if field is summary then value else Resume.summary prev)
    (if field is skills then value else Resume.skills prev)
    (Resume.experience prev) (Resume.education prev) (Resume.projects prev)
    (Resume.avatar prev).

(** [{ ...prev, experience: l }] and its two siblings *)
Definition withExperience (l : list ResumeSection.t) (prev : Resume.t) : Resume.t :=
  Resume.mk (Resume.fullName prev) (Resume.email prev) (Resume.phone prev)
    (Resume.summary prev) (Resume.skills prev) l (Resume.education prev)
    (Resume.projects prev) (Resume.avatar prev).

Definition withEducation (l : list ResumeSection.t) (prev : Resume.t) : Resume.t :=
  Resume.mk (Resume.fullName prev) (Resume.email prev) (Resume.phone prev)
    (Resume.summary prev) (Resume.skills prev) (Resume.experience prev) l
    (Resume.projects prev) (Resume.avatar prev).

Definition withProjects (l : list Project.t) (prev : Resume.t) : Resume.t :=
  Resume.mk (Resume.fullName prev) (Resume.email prev) (Resume.phone prev)
    (Resume.summary prev) (Resume.skills prev) (Resume.experience prev)
    (Resume.education prev) l (Resume.avatar prev).

(** The updater of [addItem(section)], with [Date.now()] read as [now]. *)
Definition addItem (section : Section) (now : N) (prev : Resume.t) : Resume.t :=
  let newId := Date_now_toString now in
  match section with
  | projects =>
      withProjects (Resume.projects prev ++ [Project.mk newId "" "" "" ""]) prev
  | experience =>
      withExperience (Resume.experience prev ++ [ResumeSection.mk newId "" "" "" ""]) prev
  | education =>
      withEducation (Resume.education prev ++ [ResumeSection.mk newId "" "" "" ""]) prev
  end.

(** The updater of [removeItem(section, id)]. *)
Definition removeItem (section : Section) (x : string) (prev : Resume.t) : Resume.t :=
  match section with
  | projects =>
      withProjects (filter (λ item, Project.id item ≠ x) (Resume.projects prev)) prev
  | experience =>
      withExperience (filter (λ item, ResumeSection.id item ≠ x) (Resume.experience prev)) prev
  | education =>
      withEducation (filter (λ item, ResumeSection.id item ≠ x) (Resume.education prev)) prev
  end.

(** [{ ...item, [field]: value }] on an entry of experience or education.
    A key the entry type does not have is carried by the object but read
    by nothing; it is dropped here. *)
Definition setSectionField (field value : string) (item : ResumeSection.t)
    : ResumeSection.t :=
  ResumeSection.mk
    (if decide (field = "id") then value else ResumeSection.id item)
    (if decide (field = "title") then value else ResumeSection.title item)
    (if decide (field = "company") then value else ResumeSection.company item)
    (if decide (field = "date") then value else ResumeSection.date item)
    (if decide (field = "details") then value else ResumeSection.details item).

Definition setProjectField (field value : string) (item : Project.t) : Project.t :=
  Project.mk
    (if decide (field = "id") then value else Project.id item)
    (if decide (field = "name") then value else Project.name item)
    (if decide (field = "technologies") then value else Project.technologies item)
    (if decide (field = "link") then value else Project.link item)
    (if decide (field = "description") then value else Project.description item).

(** The updater of [updateItem(section, id, field, value)]. *)
Definition updateItem (section : Section) (x field value : string) (prev : Resume.t)
    : Resume.t :=
  match section with
  | projects =>
      withProjects
        ((λ item, if decide (Project.id item = x)
                  then setProjectField field value item else item)
           <$> Resume.projects prev) prev
  | experience =>
      withExperience
        ((λ item, if decide (ResumeSection.id item = x)
                  then setSectionField field value item else item)
           <$> Resume.experience prev) prev
  | education =>
      withEducation
        ((λ item, if decide (ResumeSection.id item = x)
                  then setSectionField field value item else item)
           <$> Resume.education prev) prev
  end.

(** *** handleFileUpload *)

(** What the analysis of an uploaded file returns: any of the keys may
    be missing. *)
Record ParsedData := mkParsedData {
  p_fullName : option string;
  p_email : option string;
  p_phone : option string;
  p_summary : option string;
  p_skills : option string;
  p_experience : option (list ResumeSection.t);
  p_education : option (list ResumeSection.t);
  p_projects : option (list Project.t)
}.

(** [Date.now().toString() + tag + idx] *)
Definition uploadId (now : N) (tag : string) (idx : nat) : string :=
  Date_now_toString now +:+ tag +:+ pretty idx.

(** The updater [handleFileUpload] passes to [setResume]; [clock section
    idx] is what [Date.now()] reads when entry [idx] of that list is
    mapped. *)
Definition applyParsed (clock : Section → nat → N) (parsedData : ParsedData)
    (prev : Resume.t) : Resume.t :=
  Resume.mk
    (default (Resume.fullName prev) (p_fullName parsedData))
    (default (Resume.email prev) (p_email parsedData))
    (default (Resume.phone prev) (p_phone parsedData))
    (default (Resume.summary prev) (p_summary parsedData))
    (default (Resume.skills prev) (p_skills parsedData))
    (default []
       (imap (λ idx item,
                ResumeSection.mk (uploadId (clock experience idx) "exp" idx)
                  (ResumeSection.title item) (ResumeSection.company item)
                  (ResumeSection.date item) (ResumeSection.details item))
          <$> p_experience parsedData))
    (default []
       (imap (λ idx item,
                ResumeSection.mk (uploadId (clock education idx) "edu" idx)
                  (ResumeSection.title item) (ResumeSection.company item)
                  (ResumeSection.date item) (ResumeSection.details item))
          <$> p_education parsedData))
    (default []
       (imap (λ idx item,
                Project.mk (uploadId (clock projects idx) "proj" idx)
                  (Project.name item) (Project.technologies item)
                  (Project.link item) (Project.description item))
          <$> p_projects parsedData))
    (Resume.avatar prev).

(** The handler once the file is read, at time [now]: [parsed] is how
    [parseAndImproveResume] completes. Returns the alert shown, if any. *)
Definition handleFileUpload (now : N) (clock : Section → nat → N)
    (parsed : Completion (option ParsedData)) (s : App.State)
    : option string * App.State :=
  match parsed with
  | Returned (Some parsedData) =>
      (None, App.setResume now (applyParsed clock parsedData) s)
  | Returned None => (None, s)
  | Thrown err =>
      (Some "Could not process the resume. Please ensure the file is readable.",
       App.console_error "Gemini processing error" err s)
  end.

End ResumeBuilder.

(** ** services/geminiService: generateAvatar *)

Module AvatarService.

(** [s.split(sep)] for a separator of one character: never empty. *)
Fixpoint split (sep : ascii) (s : string) : list string :=
  match s with
  | EmptyString => [""]
  | String c rest =>
      if decide (c = sep) then "" :: split sep rest
      else
        match split sep rest with
        | piece :: pieces => String c piece :: pieces
        | [] => [String c ""]
        end
  end.

(** [s.includes(c)] for one character. *)
Fixpoint includes (c : ascii) (s : string) : bool :=
  match s with
  | EmptyString => false
  | String c' rest => bool_decide (c' = c) || includes c rest
  end.

(** [imageBase64.split(',')[1] || imageBase64] *)
Definition base64Data (imageBase64 : string) : string :=
  opt_or_else (split ","%char imageBase64 !! 1) imageBase64.

(** [imageBase64.includes(';') ? imageBase64.split(';')[0].split(':')[1]
    : 'image/png']; [None] is [undefined]. *)
Definition mimeType (imageBase64 : string) : option string :=
  if includes ";"%char imageBase64
  then split ";"%char imageBase64 !! 0 ≫= λ head, split ":"%char head !! 1
  else Some "image/png".

(** A part of the model's answer. *)
Inductive Part :=
| TextPart (text : string)
| InlineData (data : string).

(** The loop over the parts: the first image found, as a data URL. *)
Fixpoint firstImage (parts : list Part) : option string :=
  match parts with
  | [] => None
  | InlineData d :: _ => Some ("data:image/png;base64," +:+ d)
  | TextPart _ :: rest => firstImage rest
  end.

(** [generateAvatar]: what is sent is [(mimeType, base64Data)]; the
    answer is the list of parts of the first candidate ([[]] when there
    is none), or a failure, which is logged and thrown again. *)
Definition generateAvatar (response : Settled (list Part)) : Completion (option string) :=
  match response with
  | Fulfilled parts => Returned (firstImage parts)
  | Rejected e => Thrown e
  end.

End AvatarService.

(** ** components/AvatarGenerator *)

Module AvatarGenerator.

Record State := mkState {
  stylePrompt : string;
  selectedImage : option string;
  generatedImage : option string;
  loading : bool;
  attached : bool;
  alerts : list string
}.

Definition initial : State := mkState "" None None false false [].

(** [handleGenerate], run to its end. *)
Definition handleGenerate (response : Settled (list AvatarService.Part)) (st : State)
    : State :=
  if negb (JobTracker.opt_truthy (selectedImage st)) then st
  else
    match AvatarService.generateAvatar response with
    | Returned image =>
        mkState (stylePrompt st) (selectedImage st) image false false (alerts st)
    | Thrown _ =>
        mkState (stylePrompt st) (selectedImage st) (generatedImage st) false false
          (alerts st ++ ["Failed to generate image. Please try again."])
    end.

End AvatarGenerator.

(** ** components/JobTracker, continued: handleDownloadPDF *)

Module JobTrackerPrint.

Definition star : ascii := "*"%char.

(** [s.replace(/\*\*/g, '')]: every pair of stars met from the left goes. *)
Fixpoint stripBold (s : string) : string :=
  match s with
  | EmptyString => EmptyString
  | String c rest =>
      match rest with
      | String c' rest' =>
          if decide (c = star ∧ c' = star) then stripBold rest'
          else String c (stripBold rest)
      | EmptyString => String c EmptyString
      end
  end.

(** What is written into the print window. *)
Record Page := mkPage {
  title : string;
  heading : string;
  company : string;
  content : string
}.

(** [handleDownloadPDF]; [popup] tells whether [window.open] gave a
    window. *)
Definition handleDownloadPDF (popup : bool) (jt : JobTracker.State) : option Page :=
  match JobTracker.selectedJob jt with
  | None => None
  | Some selectedJob =>
      let isGuide :=
        JobTracker.isJobOfferType selectedJob
        || JobTracker.opt_truthy (Job.interviewGuide selectedJob) in
      let title :=
        if isGuide then "Interview Guide - " +:+ Job.company selectedJob
        else "Cover Letter - " +:+ Job.company selectedJob in
      let content :=
        if isGuide then opt_or_else (Job.interviewGuide selectedJob) ""
        else or_else (Job.coverLetter selectedJob) "" in
      if popup then
        Some (mkPage title
                ((if isGuide then "Interview Prep Guide for " else "Application for ")
                 +:+ Job.role selectedJob)
                (Job.company selectedJob)
                (stripBold content))
      else None
  end.

End JobTrackerPrint.

(** ** components/JobTracker, continued: handlers that outlive their render

    An async handler keeps, for as long as it runs, the props and the
    state of the render that created it: [selectedJob], [jobs], and
    [onUpdateJob], which is the [handleUpdateJob] of the same render of
    [App]. The state updates it issues apply to the state at the time
    they are issued. Below, [closure] and [render] are the tracker and
    [App] of the render the handler belongs to; [jt] and [app] are the
    states at the time it resumes. *)

Module JobTrackerAsync.

Import JobTracker.

(** [handleStatusChange] up to its [await]: [onUpdateJob] has run up to
    its own [await], and the remote update is pending. The handler is
    invoked by the change of the select, so it is the handler of the
    current render; [setSelectedJob] comes after the [await]. *)
Definition handleStatusChange_optimistic (now : N) (jobId : string)
    (newStatus : JobStatus) (app : App.State) : App.State :=
  match App.find_job jobId (App.jobs app) with
  | Some jobToUpdate =>
      App.handleUpdateJob_optimistic app now (Job.with_status newStatus jobToUpdate) app
  | None => app
  end.

(** The rest of [handleStatusChange], once the remote update has
    settled. *)
Definition handleStatusChange_settle {A} (closure : State) (render : App.State)
    (jobId : string) (newStatus : JobStatus) (r : Settled (PostgrestResponse A))
    (jt : State) (app : App.State) : State * App.State :=
  match App.find_job jobId (App.jobs render) with
  | Some jobToUpdate =>
      let updatedJob := Job.with_status newStatus jobToUpdate in
      let app' := App.handleUpdateJob_settle r app in
      match selectedJob closure with
      | Some sel =>
          if decide (Job.id sel = jobId)
          then (setSelectedJob (Some updatedJob) jt, app')
          else (jt, app')
      | None => (jt, app')
      end
  | None => (jt, app)
  end.

(** [handleRegenerate] from the moment the generation call has settled:
    the record it rewrites is the [selectedJob] of its closure, and the
    [onUpdateJob] it calls is the [handleUpdateJob] of [render]. *)
Definition handleRegenerate_resume {A} (closure : State) (render : App.State) (now : N)
    (response : Settled (option string)) (r : Settled (PostgrestResponse A))
    (jt : State) (app : App.State) : Completion (State * App.State) :=
  match selectedJob closure with
  | None => Returned (jt, app)
  | Some sel =>
      let onUpdateJob job :=
        App.handleUpdateJob_settle r (App.handleUpdateJob_optimistic render now job app) in
      let isGuide := isJobOfferType sel in
      try_catch
        (if isGuide then
           newContent ← GeminiService.generateInterviewGuide
                          (Job.company sel) (Job.role sel) (Job.description sel) response;
           let updatedJob := Job.with_interviewGuide newContent sel in
           Returned (setSelectedJob (Some updatedJob) jt, onUpdateJob updatedJob)
         else
           newContent ← GeminiService.generateCoverLetter
                          (Job.company sel) (Job.role sel) (Job.description sel) response;
           let updatedJob := Job.with_coverLetter newContent sel in
           Returned (setSelectedJob (Some updatedJob) jt, onUpdateJob updatedJob))
        (λ e, Returned (alert "Failed to regenerate content." jt,
                        App.console_error "Regeneration failed" e app))
  end.

End JobTrackerAsync.

(** ** Vocabulary of the statements *)

(** The identities of a collection, in order. *)
Definition ids (l : list Job.t) : list string := Job.id <$> l.

(** How many records of a collection carry identity [x]. *)
Definition count_id (x : string) (l : list Job.t) : nat :=
  length (filter (λ j, Job.id j = x) l).

(** The remote insert failed: the [catch] of [handleAddJob] is reached. *)
Definition insert_failed (r : Settled (PostgrestResponse InsertedRow)) : Prop :=
  ∃ e, App.insert_result r = Thrown e.

(** A remote call failed, whichever way the failure is delivered: the
    promise rejects, or it resolves to a response whose [error] is set
    (the case [handleAddJob] and [fetchData] test with [if (error)]). *)
Definition call_failed {A} (r : Settled (PostgrestResponse A)) : Prop :=
  match r with
  | Rejected _ => True
  | Fulfilled resp => is_Some (error resp)
  end.

(** [sub] occurs in [s]. *)
Definition contains (sub s : string) : Prop :=
  ∃ pre post, s = pre +:+ sub +:+ post.

(** The transitions the notifier speaks up for. *)
Definition notifiable (old new : JobStatus) : Prop :=
  old ≠ new ∧ (new = ACCEPTED ∨ new = REJECTED).

(** What the generation wrappers answer when the model call fails. *)
Definition failurePlaceholder (guide : bool) : string :=
  if guide
  then "Error generating interview guide. Please check your API key."
  else "Error generating cover letter. Please check your API key.".

(** One step of the application: a handler of the current render up to
    its next [await], the continuation of a handler after a call has
    settled, or the passing of time. *)
Inductive step : App.State → App.State → Prop :=
| step_add_optimistic now job s :
    step s (App.handleAddJob_optimistic now job s)
| step_add_settle now job r s :
    step s (App.handleAddJob_settle now job r s)
| step_update_optimistic now job s :
    step s (App.handleUpdateJob_optimistic s now job s)
| step_update_settle (r : Settled (PostgrestResponse ())) s :
    step s (App.handleUpdateJob_settle r s)
| step_delete_optimistic x s :
    step s (App.handleDeleteJob_optimistic x s)
| step_delete_settle (r : Settled (PostgrestResponse ())) s :
    step s (App.handleDeleteJob_settle r s)
| step_view v s :
    step s (App.setCurrentView v s)
| step_resume now f s :
    step s (App.setResume now f s)
| step_session now x s :
    step s (App.setSession now x s)
| step_advance now s :
    step s (App.advance now s).

Definition reachable (s : App.State) : Prop := rtc step App.initial s.

(** What holds of the unread badge as long as every update is issued by
    the handler of the current render. *)
Definition badge_ok (s : App.State) : Prop :=
  App.currentView s = CLAIRE → App.unreadClaire s = false.

(** The guard of the autosave effect lets a state through. *)
Definition saves (s : App.State) : Prop :=
  is_Some (App.session s) ∧ Resume.fullName (App.resume s) ≠ "".

#[global] Instance saves_dec s : Decision (saves s).
Proof. unfold saves. apply _. Defined.

(** Only the timeout of the last run of the effect can be pending. *)
Definition owned (s : App.State) : Prop :=
  ∀ t, t ∈ App.timers s → App.autosaveCleanup s = Some (timer_id t).

(** What holds of the timer queue in every reachable state: the only
    timeout that can be pending is the one the autosave cleanup clears,
    and nothing with an empty name was or will be saved. *)
Definition autosave_ok (s : App.State) : Prop :=
  owned s
  ∧ (∀ t, t ∈ App.timers s → Resume.fullName (callback_resume t) ≠ "")
  ∧ (∀ r, r ∈ App.saved s → Resume.fullName r ≠ "").

(** ** Sample data *)

Module Sample.

Definition acme : Job.t :=
  Job.mk "" "Acme" "Engineer" "Remote" "Negotiable" APPLIED "2024-05-01"
         "" "Dear Hiring Manager," (Some "") "" (Some application).

Definition globex : Job.t :=
  Job.mk "" "Globex" "Analyst" "Remote" "Negotiable" APPLIED "2024-05-01"
         "" "Dear Hiring Manager," (Some "") "" (Some application).

(** An application that has reached the status Offer. *)
Definition promoted : Job.t :=
  Job.mk "7" "Initech" "Designer" "Remote" "Negotiable" OFFER "2024-05-01"
         "" "Dear Hiring Manager," None "" (Some application).

Definition t0 : N := 1700000000000.

Definition refused {A} : Settled (PostgrestResponse A) :=
  Fulfilled (mkResponse None (Some "permission denied")).

Definition unreachable {A} : Settled (PostgrestResponse A) :=
  Rejected "Failed to fetch".

Definition inserted (x : string) : Settled (PostgrestResponse InsertedRow) :=
  Fulfilled (mkResponse (Some (mkRow x)) None).

Definition accepted : Settled (PostgrestResponse ()) :=
  Fulfilled (mkResponse (Some ()) None).

(** [updateField('fullName', v)] *)
Definition setFullName (v : string) (r : Resume.t) : Resume.t :=
  Resume.mk v (Resume.email r) (Resume.phone r) (Resume.summary r)
            (Resume.skills r) (Resume.experience r) (Resume.education r)
            (Resume.projects r) (Resume.avatar r).

(** [updateField('email', v)] *)
Definition setEmail (v : string) (r : Resume.t) : Resume.t :=
  Resume.mk (Resume.fullName r) v (Resume.phone r) (Resume.summary r)
            (Resume.skills r) (Resume.experience r) (Resume.education r)
            (Resume.projects r) (Resume.avatar r).

(** A signed-in application with nothing loaded yet. *)
Definition signedIn : App.State := App.setSession 0 (Some "user-1") App.initial.

(** One record in the store, with a real identity. *)
Definition oneJob : App.State :=
  App.handleAddJob t0 acme (inserted "41") App.initial.

(** The same record, looked at from the applications list. *)
Definition tracking : App.State := App.setCurrentView JOBS oneJob.

(** A store whose only record has status [st]. *)
Definition tracked (st : JobStatus) : App.State :=
  App.setJobs (λ _, [Job.with_status st (Job.with_id "41" acme)]) App.initial.

(** How many messages an update of that record from [old] to [new] appends. *)
Definition appended (old new : JobStatus) : nat :=
  length (App.claireMessages
            (App.handleUpdateJob_optimistic (tracked old) t0
               (Job.with_status new (Job.with_id "41" acme)) (tracked old)))
  - length (App.claireMessages (tracked old)).

(** A mixed collection, in the order the store holds it. *)
Definition mixed : list Job.t :=
  [ Job.with_id "1" acme;
    Job.mk "2" "Umbrella" "Chemist" "Remote" "Negotiable" OFFER "2024-05-02"
           "" "" (Some "Guide") "" (Some offer);
    promoted;
    Job.mk "4" "Hooli" "Tester" "Remote" "Negotiable" OFFER "2024-05-03"
           "" "Dear Hiring Manager," None "" None;
    Job.mk "5" "Stark" "Welder" "Remote" "Negotiable" REJECTED "2024-05-04"
           "" "Dear Hiring Manager," None "" None ].

(** The tracker with [promoted] open in the detail panel. *)
Definition promotedOpen : JobTracker.State :=
  JobTracker.setSelectedJob (Some promoted) (JobTracker.initial JobTracker.applications).

Definition promotedStored : App.State :=
  App.setJobs (λ _, [promoted]) (App.setCurrentView JOBS App.initial).

(** The form of a tracker in mode [viewMode], filled in. *)
Definition filledForm (viewMode : JobTracker.ViewMode) : JobTracker.State :=
  JobTracker.mkState true None
    (JobTracker.mkNewJob (Some "Acme") (Some "Engineer") None None None (Some "")
       (JobTracker.defaultStatus viewMode))
    false [].

(** Three edits of the e-mail field, 700ms apart, the first at [1000]. *)
Definition emailEdits : list (N * (Resume.t → Resume.t)) :=
  [ (0%N, setEmail "a"); (700%N, setEmail "a@b"); (700%N, setEmail "a@b.c") ].

(** Three edits of the name field, 700ms apart. *)
Definition nameEdits : list (N * (Resume.t → Resume.t)) :=
  [ (0%N, setFullName "A"); (700%N, setFullName "Al"); (700%N, setFullName "Ali") ].

End Sample.

(** ** A regeneration that outlives its render *)

Module Race.

(** An application that was accepted. *)
Definition hired : Job.t := Job.with_status ACCEPTED (Job.with_id "41" Sample.acme).

(** Signed in, with [hired] loaded from the store, on the applications
    list. *)
Definition loaded : App.State :=
  App.setCurrentView JOBS
    (AppData.fetchData 0
       (Fulfilled
          (mkResponse
             (Some [AppData.mkJobRow "41" (AppData.insertColumns (Some "user-1") hired)])
             None))
       (Fulfilled (mkResponse None None))
       Sample.signedIn).

(** The tracker with [hired] open in the detail panel. *)
Definition opened : JobTracker.State :=
  JobTracker.setSelectedJob (Some hired) (JobTracker.initial JobTracker.applications).

(** What the model answers, some time later. *)
Definition answer : Settled (option string) := Fulfilled (Some "Dear team,").

(** *** First run: the status is corrected while the model is asked

    Regenerate is clicked in [(opened, loaded)]. While the model call is
    pending, the status of the record is set to Interview. *)
Definition corrected : JobTracker.State * App.State :=
  JobTracker.handleStatusChange 1000 "41" INTERVIEW Sample.accepted opened loaded.

(** Then the model answers and the regeneration goes on, with the
    closure it started with. *)
Definition regenerated : Completion (JobTracker.State * App.State) :=
  JobTrackerAsync.handleRegenerate_resume opened loaded 5000 answer Sample.accepted
    corrected.1 corrected.2.

(** *** Second run: the chat is opened while the model is asked

    The status is set to Interview; the remote update is pending, so
    the detail panel still holds the record as accepted. *)
Definition changing : App.State :=
  JobTrackerAsync.handleStatusChange_optimistic 1000 "41" INTERVIEW loaded.

(** Regenerate is clicked in [(opened, changing)], and then the chat is
    opened. *)
Definition inChat : App.State := App.setCurrentView CLAIRE changing.

(** Then the model answers and the regeneration goes on. *)
Definition regeneratedInChat : Completion (JobTracker.State * App.State) :=
  JobTrackerAsync.handleRegenerate_resume opened changing 5000 answer Sample.accepted
    opened inChat.

End Race.

(** ** Vocabulary of the further statements *)

(** Two stars in a row occur in [s]. *)
Fixpoint hasBoldMarker (s : string) : bool :=
  match s with
  | String c rest =>
      match rest with
      | String c' _ =>
          bool_decide (c = JobTrackerPrint.star ∧ c' = JobTrackerPrint.star)
          || hasBoldMarker rest
      | EmptyString => false
      end
  | EmptyString => false
  end.

(** Every character of [s] is a decimal digit. *)
Fixpoint digitsOnly (s : string) : bool :=
  match s with
  | EmptyString => true
  | String c rest =>
      bool_decide (48 ≤ nat_of_ascii c ≤ 57)%nat && digitsOnly rest
  end.

(** The identities of the entries of one list of a resume, in order. *)
Definition sectionIds (section : ResumeBuilder.Section) (r : Resume.t) : list string :=
  match section with
  | ResumeBuilder.experience => ResumeSection.id <$> Resume.experience r
  | ResumeBuilder.education => ResumeSection.id <$> Resume.education r
  | ResumeBuilder.projects => Project.id <$> Resume.projects r
  end.

(** An entry of experience or education without its identity. *)
Definition sectionContent (item : ResumeSection.t) : string * string * string * string :=
  (ResumeSection.title item, ResumeSection.company item,
   ResumeSection.date item, ResumeSection.details item).

(** A project without its identity. *)
Definition projectContent (item : Project.t) : string * string * string * string :=
  (Project.name item, Project.technologies item,
   Project.link item, Project.description item).

(** The mode a tracker is not in. *)
Definition otherMode (mode : JobTracker.ViewMode) : JobTracker.ViewMode :=
  match mode with
  | JobTracker.applications => JobTracker.offers
  | JobTracker.offers => JobTracker.applications
  end.

(** * Properties *)

(** Closed decidable facts are settled by evaluation. *)
Ltac by_evaluation := refine (bool_decide_unpack _ _); vm_compute; exact I.

(** ** The job store: optimistic add *)

Section JobStore.

Implicit Types (s : App.State) (job j : Job.t) (l : list Job.t) (x : string).

Lemma filter_other_ids_fresh x l :
  x ∉ ids l → filter (λ j, Job.id j ≠ x) l = l.
Proof.
  induction l as [|j l IH]; intros Hfresh; [done|].
  rw /ids fmap_cons not_elem_of_cons in Hfresh.
  destruct Hfresh as [Hne Hfresh].
  rw filter_cons_True; [|congruence].
  by rw IH.
Qed.

Lemma replace_id_fresh x (real : Job.t) l :
  x ∉ ids l → (λ j, if decide (Job.id j = x) then real else j) <$> l = l.
Proof.
  induction l as [|j l IH]; intros Hfresh; [done|].
  rw /ids fmap_cons not_elem_of_cons in Hfresh.
  destruct Hfresh as [Hne Hfresh].
  rw fmap_cons IH //.
  case_decide; [by subst|done].
Qed.

Lemma count_id_fresh x l : x ∉ ids l → count_id x l = 0.
Proof.
  induction l as [|j l IH]; intros Hfresh; [done|].
  rw /ids fmap_cons not_elem_of_cons in Hfresh.
  destruct Hfresh as [Hne Hfresh].
  rw /count_id filter_cons_False; [|congruence].
  by apply IH.
Qed.

Lemma filter_other_ids_spec x l j :
  j ∈ filter (λ j, Job.id j ≠ x) l ↔ Job.id j ≠ x ∧ j ∈ l.
Proof. apply (list_elem_of_filter (λ j, Job.id j ≠ x)). Qed.

(** The revert of [handleAddJob], whatever happened to the collection
    while the call was pending: every record with the temporary identity
    goes, every other record stays where it is. *)
Lemma handleAddJob_settle_failure now job r s :
  insert_failed r →
  App.jobs (App.handleAddJob_settle now job r s)
  = filter (λ j, Job.id j ≠ Date_now_toString now) (App.jobs s).
Proof. intros [e He]. rw /App.handleAddJob_settle He //. Qed.

(** The swap of [handleAddJob], whatever happened meanwhile: in place. *)
Lemma handleAddJob_settle_success now job r x s i :
  App.insert_result r = Returned x →
  App.jobs (App.handleAddJob_settle now job r s) !! i
  = (λ j, if decide (Job.id j = Date_now_toString now) then Job.with_id x job else j)
      <$> App.jobs s !! i.
Proof.
  intros Hr. rw /App.handleAddJob_settle Hr /=. apply list_lookup_fmap.
Qed.

(** The revert in general: when the remote insert fails the collection
    is the previous one without the records that carry the temporary
    identity. No record with that identity remains, the optimistic record
    is gone, every record with another identity is kept in place; and
    when no earlier record carries the temporary identity, the collection
    is exactly the one from before the add. *)
Theorem handleAddJob_failure_reverts now job r s :
  insert_failed r →
  let tempId := Date_now_toString now in
  let after := App.jobs (App.handleAddJob now job r s) in
  after = filter (λ j, Job.id j ≠ tempId) (App.jobs s)
  ∧ (tempId ∉ ids after)
  ∧ (Job.with_id tempId job ∉ after)
  ∧ (∀ j, j ∈ App.jobs s → Job.id j ≠ tempId → j ∈ after)
  ∧ (tempId ∉ ids (App.jobs s) → after = App.jobs s).
Proof.
  intros Hfail tempId after.
  assert (Hafter : after = filter (λ j, Job.id j ≠ tempId) (App.jobs s)).
  { rw /after /App.handleAddJob handleAddJob_settle_failure //=.
    rw filter_cons_False //. by intros []. }
  split_and!; [done|..].
  - rw Hafter /ids list_elem_of_fmap. intros (j & Hid & Hj).
    apply filter_other_ids_spec in Hj as [Hne _]. by apply Hne.
  - rw Hafter filter_other_ids_spec. intros [Hne _]. by apply Hne.
  - intros j Hj Hne. rw Hafter filter_other_ids_spec //.
  - intros Hfresh. rw Hafter. by apply filter_other_ids_fresh.
Qed.

Lemma handleAddJob_failure_reverts_witness :
  insert_failed (Sample.refused (A:=InsertedRow))
  ∧ App.jobs (App.handleAddJob Sample.t0 Sample.globex Sample.refused Sample.oneJob)
    = App.jobs Sample.oneJob.
Proof.
  assert (Hfail : insert_failed (Sample.refused (A:=InsertedRow))) by (by eexists).
  split; [done|].
  apply (handleAddJob_failure_reverts Sample.t0 Sample.globex _ Sample.oneJob Hfail).
  by_evaluation.
Defined.

(** C1 at a failing input: two adds are issued within the same
    millisecond, so they share the temporary identity. The first is
    pending when the insert of the second fails, and the revert of the
    second, which filters by that identity, removes the pending record of
    the first too: the collection is not the one from before the add. *)
Lemma handleAddJob_failure_removes_namesake :
  let pending := App.handleAddJob_optimistic Sample.t0 Sample.acme App.initial in
  insert_failed (Sample.refused (A:=InsertedRow))
  ∧ App.jobs pending = [Job.with_id "1700000000000" Sample.acme]
  ∧ App.jobs (App.handleAddJob Sample.t0 Sample.globex Sample.refused pending) = []
  ∧ App.jobs (App.handleAddJob Sample.t0 Sample.globex Sample.refused pending)
    ≠ App.jobs pending.
Proof. split_and!; [by eexists|done|done|by vm_compute]. Qed.

Lemma filter_none {A} (P : A → Prop) `{!∀ a, Decision (P a)} (l : list A) :
  (∀ a, a ∈ l → ¬ P a) → filter P l = [].
Proof.
  induction l as [|a l IH]; intros Hall; [done|].
  rw filter_cons_False; [|apply Hall; by left].
  apply IH. intros b Hb. apply Hall. by right.
Qed.

Lemma count_id_cons x j l :
  count_id x (j :: l) = (if decide (Job.id j = x) then 1 else 0) + count_id x l.
Proof. rw /count_id filter_cons. by case_decide. Qed.

Lemma with_id_fields x job :
  let j := Job.with_id x job in
  Job.id j = x
  ∧ Job.company j = Job.company job ∧ Job.role j = Job.role job
  ∧ Job.location j = Job.location job ∧ Job.salary j = Job.salary job
  ∧ Job.status j = Job.status job ∧ Job.dateApplied j = Job.dateApplied job
  ∧ Job.description j = Job.description job
  ∧ Job.coverLetter j = Job.coverLetter job
  ∧ Job.interviewGuide j = Job.interviewGuide job
  ∧ Job.email j = Job.email job ∧ Job.origin j = Job.origin job.
Proof. by split_and!. Qed.

(** The swap when identities are fresh: when the remote insert succeeds
    with identity [x], and neither the temporary identity nor [x] is
    carried by an earlier record, then readers see the optimistic record at the head
    while the call is pending and the real record at the head afterwards;
    the real record has the submitted fields; the rest of the collection
    is untouched; and in both states exactly one entry stands for the
    new record. *)
Theorem handleAddJob_success_reconciles now job r x s :
  App.insert_result r = Returned x →
  Date_now_toString now ∉ ids (App.jobs s) →
  x ∉ ids (App.jobs s) →
  let tempId := Date_now_toString now in
  let pending := App.jobs (App.handleAddJob_optimistic now job s) in
  let after := App.jobs (App.handleAddJob now job r s) in
  pending = Job.with_id tempId job :: App.jobs s
  ∧ after = Job.with_id x job :: App.jobs s
  ∧ count_id x after = 1
  ∧ (∃ real, after !! 0 = Some real
       ∧ Job.id real = x
       ∧ Job.company real = Job.company job ∧ Job.role real = Job.role job
       ∧ Job.location real = Job.location job ∧ Job.salary real = Job.salary job
       ∧ Job.status real = Job.status job
       ∧ Job.dateApplied real = Job.dateApplied job
       ∧ Job.description real = Job.description job
       ∧ Job.coverLetter real = Job.coverLetter job
       ∧ Job.interviewGuide real = Job.interviewGuide job
       ∧ Job.email real = Job.email job ∧ Job.origin real = Job.origin job)
  ∧ length (filter (λ j, Job.id j = tempId ∨ Job.id j = x) pending) = 1
  ∧ length (filter (λ j, Job.id j = tempId ∨ Job.id j = x) after) = 1.
Proof.
  intros Hr Htemp Hx tempId pending after.
  assert (Hafter : after = Job.with_id x job :: App.jobs s).
  { rw /after /App.handleAddJob /App.handleAddJob_settle Hr.
    cbn [App.jobs App.setJobs App.handleAddJob_optimistic].
    rw fmap_cons decide_True // replace_id_fresh //. }
  assert (Hnone : filter (λ j, Job.id j = tempId ∨ Job.id j = x) (App.jobs s) = []).
  { apply filter_none. intros j Hj [Hid|Hid].
    - apply Htemp. rw /ids list_elem_of_fmap. by exists j.
    - apply Hx. rw /ids list_elem_of_fmap. by exists j. }
  split_and!; [done|done|..].
  - rw Hafter count_id_cons decide_True // count_id_fresh //.
  - exists (Job.with_id x job). rw Hafter. split; [done|]. apply with_id_fields.
  - rw /pending /= filter_cons_True; [|by left]. by rw Hnone.
  - rw Hafter filter_cons_True; [|by right]. by rw Hnone.
Qed.

Lemma handleAddJob_success_reconciles_witness :
  App.jobs (App.handleAddJob Sample.t0 Sample.globex (Sample.inserted "42") Sample.oneJob)
  = Job.with_id "42" Sample.globex :: App.jobs Sample.oneJob.
Proof.
  apply (handleAddJob_success_reconciles Sample.t0 Sample.globex
           (Sample.inserted "42") "42" Sample.oneJob eq_refl);
    by_evaluation.
Defined.

(** C2 at a failing input: two adds are issued within the same
    millisecond, so they share the temporary identity. The first is
    pending when the insert of the second succeeds with identity [42]:
    the swap, which maps over every record of the temporary identity,
    overwrites the pending record of the first as well, and the
    collection ends with two records of identity [42]. *)
Lemma handleAddJob_success_duplicates_namesake :
  let pending := App.handleAddJob_optimistic Sample.t0 Sample.acme App.initial in
  let after :=
    App.jobs (App.handleAddJob Sample.t0 Sample.globex (Sample.inserted "42") pending) in
  App.insert_result (Sample.inserted "42") = Returned "42"
  ∧ ("42" ∉ ids (App.jobs pending))
  ∧ after = [Job.with_id "42" Sample.globex; Job.with_id "42" Sample.globex]
  ∧ count_id "42" after ≠ 1.
Proof. split_and!; [done|by_evaluation|by vm_compute|by vm_compute]. Qed.

End JobStore.

(** ** The job store: update and delete *)

Section UpdateDelete.

Context {A : Type}.
Implicit Types (s : App.State) (job old : Job.t) (r : Settled (PostgrestResponse A)).

Lemma notification_keeps_jobs render now job st s :
  App.jobs (App.handleJobStatusChangeNotification render now job st s) = App.jobs s.
Proof.
  rw /App.handleJobStatusChangeNotification.
  repeat case_match; done.
Qed.

Lemma handleUpdateJob_optimistic_jobs render now job s :
  App.jobs (App.handleUpdateJob_optimistic render now job s)
  = (λ j, if decide (Job.id j = Job.id job) then job else j) <$> App.jobs s.
Proof.
  rw /App.handleUpdateJob_optimistic.
  repeat case_match; rw ?notification_keeps_jobs //.
Qed.

(** Whatever the remote update does, the collection keeps the optimistic
    replacement: the continuation never touches [jobs]. *)
Lemma handleUpdateJob_no_rollback now job r s :
  App.jobs (App.handleUpdateJob now job r s)
  = App.jobs (App.handleUpdateJob_optimistic s now job s)
  ∧ App.jobs (App.handleUpdateJob now job r s)
    = (λ j, if decide (Job.id j = Job.id job) then job else j) <$> App.jobs s.
Proof.
  rw -(handleUpdateJob_optimistic_jobs s now) /App.handleUpdateJob.
  by destruct r.
Qed.

(** Whatever the remote delete does, the record stays removed. *)
Lemma handleDeleteJob_no_rollback x r s :
  App.jobs (App.handleDeleteJob x r s) = filter (λ j, Job.id j ≠ x) (App.jobs s).
Proof. by destruct r. Qed.

(** A rejected promise is logged, by both handlers. *)
Lemma rejected_call_is_logged now job x e s :
  App.console (App.handleUpdateJob now job (Rejected e : Settled (PostgrestResponse A)) s)
  = App.console (App.handleUpdateJob_optimistic s now job s) ++ [("Error updating job", e)]
  ∧ App.console (App.handleDeleteJob x (Rejected e : Settled (PostgrestResponse A)) s)
    = App.console s ++ [("Error deleting job", e)].
Proof. done. Qed.

(** A response that carries an error is not: neither handler looks at
    what the call resolved to. *)
Lemma error_response_is_ignored now job x resp s :
  App.handleUpdateJob now job (Fulfilled resp : Settled (PostgrestResponse A)) s
  = App.handleUpdateJob_optimistic s now job s
  ∧ App.handleDeleteJob x (Fulfilled resp : Settled (PostgrestResponse A)) s
    = App.handleDeleteJob_optimistic x s.
Proof. done. Qed.

End UpdateDelete.

Example rejected_update_is_logged :
  App.console
    (App.handleUpdateJob Sample.t0
       (Job.with_status INTERVIEW (Job.with_id "41" Sample.acme))
       (Sample.unreachable (A:=())) Sample.oneJob)
  = [("Error updating job", "Failed to fetch")].
Proof. by vm_compute. Qed.

(** C6 at a failing input: the store answers an update and a delete of
    record 41 with [{ data: null, error }]. The optimistic change is kept,
    but nothing is reported, whereas the same answer to an insert is
    caught and logged by [handleAddJob]. *)
Lemma update_delete_error_response_unreported :
  let job := Job.with_status INTERVIEW (Job.with_id "41" Sample.acme) in
  let updated := App.handleUpdateJob Sample.t0 job (Sample.refused (A:=())) Sample.oneJob in
  let deleted := App.handleDeleteJob "41" (Sample.refused (A:=())) Sample.oneJob in
  let added := App.handleAddJob Sample.t0 Sample.globex Sample.refused Sample.oneJob in
  call_failed (Sample.refused (A:=()))
  ∧ App.jobs Sample.oneJob = [Job.with_id "41" Sample.acme]
  ∧ App.jobs updated = [job]
  ∧ App.console updated = []
  ∧ App.jobs deleted = []
  ∧ App.console deleted = []
  ∧ App.console added = [("Error adding job", "permission denied")].
Proof. split_and!; [by eexists|by vm_compute..]. Qed.

(** ** The transition notifier *)

Section Notifier.

Implicit Types (s render : App.State) (job old : Job.t) (st : JobStatus).

Lemma append_assoc (a b c : string) : (a +:+ b) +:+ c = a +:+ b +:+ c.
Proof.
  induction a as [|ch a IH]; [done|].
  rw /String.append -/String.append. by f_equal.
Qed.

Lemma truthy_acceptedText job : truthy (App.acceptedText job) = true.
Proof.
  apply bool_decide_eq_true.
  by rw /App.acceptedText /String.append -/String.append.
Qed.

Lemma truthy_rejectedText job : truthy (App.rejectedText job) = true.
Proof.
  apply bool_decide_eq_true.
  by rw /App.rejectedText /String.append -/String.append.
Qed.

Lemma acceptedText_names job :
  contains (Job.role job) (App.acceptedText job)
  ∧ contains (Job.company job) (App.acceptedText job).
Proof.
  split.
  - by eexists _, _.
  - eexists (_ +:+ Job.role job +:+ _), _. by rw !append_assoc.
Qed.

Lemma rejectedText_names job :
  contains (Job.role job) (App.rejectedText job)
  ∧ contains (Job.company job) (App.rejectedText job).
Proof.
  split.
  - by eexists _, _.
  - eexists (_ +:+ Job.role job +:+ _), _. by rw !append_assoc.
Qed.

(** The message the notifier writes for a status, if any. *)
Lemma notification_messages render now job st s :
  App.claireMessages (App.handleJobStatusChangeNotification render now job st s)
  = match st with
    | ACCEPTED =>
        App.claireMessages s
          ++ [Message.mk (Date_now_toString now) model (App.acceptedText job)]
    | REJECTED =>
        App.claireMessages s
          ++ [Message.mk (Date_now_toString now) model (App.rejectedText job)]
    | _ => App.claireMessages s
    end.
Proof.
  rw /App.handleJobStatusChangeNotification.
  destruct st; simpl; rw ?truthy_acceptedText ?truthy_rejectedText;
    by repeat case_decide.
Qed.

(** The badge after the notifier has run. *)
Lemma notification_unread render now job st s :
  App.unreadClaire (App.handleJobStatusChangeNotification render now job st s)
  = if decide ((st = ACCEPTED ∨ st = REJECTED) ∧ App.currentView render ≠ CLAIRE)
    then true else App.unreadClaire s.
Proof.
  rw /App.handleJobStatusChangeNotification.
  destruct st; simpl; rw ?truthy_acceptedText ?truthy_rejectedText;
    repeat destruct (decide _); first [done | tauto | intuition discriminate].
Qed.

Lemma notification_currentView render now job st s :
  App.currentView (App.handleJobStatusChangeNotification render now job st s)
  = App.currentView s.
Proof.
  rw /App.handleJobStatusChangeNotification. repeat case_match; done.
Qed.

End Notifier.

(** ** The unread badge over the life of the application *)

Section Badge.

Implicit Types (s : App.State) (job old : Job.t).

Lemma handleUpdateJob_optimistic_view now job s :
  App.currentView (App.handleUpdateJob_optimistic s now job s) = App.currentView s.
Proof.
  rw /App.handleUpdateJob_optimistic.
  repeat case_match; rw ?notification_currentView //.
Qed.

(** The badge after an update issued from the current render. *)
Lemma handleUpdateJob_optimistic_unread now job s :
  App.unreadClaire (App.handleUpdateJob_optimistic s now job s)
  = match App.find_job (Job.id job) (App.jobs s) with
    | Some old =>
        if decide (notifiable (Job.status old) (Job.status job)
                   ∧ App.currentView s ≠ CLAIRE)
        then true else App.unreadClaire s
    | None => App.unreadClaire s
    end.
Proof.
  rw /App.handleUpdateJob_optimistic /notifiable.
  destruct (App.find_job _ _) as [old|]; [|done].
  destruct (decide (Job.status old ≠ Job.status job)) as [Hne|Heq].
  - rw notification_unread /=.
    repeat destruct (decide _); first [done | tauto].
  - rw decide_False //. tauto.
Qed.

Lemma step_keeps_badge_ok s s' : step s s' → badge_ok s → badge_ok s'.
Proof.
  intros Hstep Hok. destruct Hstep; rw /badge_ok.
  - done.
  - rw /App.handleAddJob_settle. by destruct (App.insert_result r).
  - rw handleUpdateJob_optimistic_view handleUpdateJob_optimistic_unread.
    intros Hview. destruct (App.find_job _ _); [|by apply Hok].
    rw decide_False; [by apply Hok|tauto].
  - by destruct r.
  - done.
  - by destruct r.
  - rw /App.setCurrentView /App.clearUnreadEffect.
    destruct (decide (v = App.currentView s)); [done|].
    simpl. by destruct (decide (v = CLAIRE)).
  - rw /App.setResume /App.autosaveEffect /=. by case_match.
  - rw /App.setSession /App.autosaveEffect /=. by case_match.
  - done.
Qed.

Lemma reachable_badge_ok s : reachable s → badge_ok s.
Proof.
  rw /reachable. revert s. apply rtc_ind_r; [done|].
  intros s1 s2 _ Hstep IH. by eapply step_keeps_badge_ok.
Qed.

End Badge.

(** ** Notifications on update *)

Section UpdateNotifies.

Implicit Types (s : App.State) (job old : Job.t).

Lemma reachable_initial : reachable App.initial.
Proof. apply rtc_refl. Qed.

Lemma reachable_step s s' : reachable s → step s s' → reachable s'.
Proof. apply rtc_r. Qed.

Lemma tracking_reachable : reachable Sample.tracking.
Proof.
  apply (reachable_step _ _
           (reachable_step _ _
              (reachable_step _ _ reachable_initial
                 (step_add_optimistic Sample.t0 Sample.acme App.initial))
              (step_add_settle Sample.t0 Sample.acme (Sample.inserted "41") _))
           (step_view JOBS _)).
Qed.

(** An update issued by the handler of the current render, on a stored
    record, appends exactly one assistant message, of role [model] and
    naming the role and the company, when the new status differs from
    the stored one and is Accepted or Rejected, and appends nothing for every other pair of statuses; the
    message is there as soon as the optimistic replacement is, and what
    the remote call does later changes nothing about it. *)
Theorem handleUpdateJob_notifies_transitions now job old s :
  App.find_job (Job.id job) (App.jobs s) = Some old →
  let applied := App.handleUpdateJob_optimistic s now job s in
  App.jobs applied
  = ((λ j, if decide (Job.id j = Job.id job) then job else j) <$> App.jobs s)
  ∧ (notifiable (Job.status old) (Job.status job) →
       ∃ m, App.claireMessages applied = App.claireMessages s ++ [m]
         ∧ Message.role m = model
         ∧ contains (Job.role job) (Message.text m)
         ∧ contains (Job.company job) (Message.text m))
  ∧ (¬ notifiable (Job.status old) (Job.status job) →
       App.claireMessages applied = App.claireMessages s)
  ∧ (∀ r : Settled (PostgrestResponse ()),
       App.claireMessages (App.handleUpdateJob now job r s)
       = App.claireMessages applied).
Proof.
  intros Hold applied. split_and!.
  - apply handleUpdateJob_optimistic_jobs.
  - intros [Hne Hst]. rw /applied /App.handleUpdateJob_optimistic Hold.
    rw decide_True // notification_messages.
    destruct Hst as [-> | ->]; eexists; (split; [done|]); (split; [done|]).
    + apply acceptedText_names.
    + apply rejectedText_names.
  - intros Hnot. rw /applied /App.handleUpdateJob_optimistic Hold.
    case_decide as Hne; [|done]. rw notification_messages.
    destruct (Job.status job) eqn:Hst; try done; destruct Hnot; by split; auto.
  - intros r. by destruct r.
Qed.

Lemma handleUpdateJob_notifies_transitions_witness :
  ∃ m,
    App.claireMessages
      (App.handleUpdateJob_optimistic Sample.tracking Sample.t0
         (Job.with_status ACCEPTED (Job.with_id "41" Sample.acme)) Sample.tracking)
    = App.claireMessages Sample.tracking ++ [m]
    ∧ Message.role m = model
    ∧ contains "Engineer" (Message.text m)
    ∧ contains "Acme" (Message.text m).
Proof.
  apply (handleUpdateJob_notifies_transitions Sample.t0
           (Job.with_status ACCEPTED (Job.with_id "41" Sample.acme))
           (Job.with_id "41" Sample.acme) Sample.tracking eq_refl).
  split; [done|by left].
Defined.

(** An update of a record the store does not hold is silent. *)
Lemma handleUpdateJob_unknown_silent now job s :
  App.find_job (Job.id job) (App.jobs s) = None →
  App.claireMessages (App.handleUpdateJob_optimistic s now job s) = App.claireMessages s
  ∧ App.unreadClaire (App.handleUpdateJob_optimistic s now job s) = App.unreadClaire s.
Proof. intros Hnone. by rw /App.handleUpdateJob_optimistic Hnone. Qed.

(** The whole table: rows are the stored status, columns the new one,
    both in the order Applied, Interview, Offer, Rejected, Draft,
    Accepted. *)
Example transition_table :
  (λ before : JobStatus, Sample.appended before <$> all_statuses) <$> all_statuses
  = [ [0; 0; 0; 1; 0; 1];
      [0; 0; 0; 1; 0; 1];
      [0; 0; 0; 1; 0; 1];
      [0; 0; 0; 0; 0; 1];
      [0; 0; 0; 1; 0; 1];
      [0; 0; 0; 1; 0; 0] ].
Proof. by vm_compute. Qed.

(** An update issued by the handler of the current render raises the
    badge exactly when the transition is notifiable and the view is not
    the chat; with the chat in view the badge stays down; and moving to
    the chat lowers it. *)
Theorem unread_badge_lifecycle now job old s :
  reachable s →
  App.find_job (Job.id job) (App.jobs s) = Some old →
  let applied := App.handleUpdateJob_optimistic s now job s in
  (App.unreadClaire applied = true ↔
     (notifiable (Job.status old) (Job.status job) ∧ App.currentView s ≠ CLAIRE)
     ∨ App.unreadClaire s = true)
  ∧ (App.currentView s = CLAIRE → App.unreadClaire applied = false)
  ∧ App.currentView (App.setCurrentView CLAIRE applied) = CLAIRE
  ∧ App.unreadClaire (App.setCurrentView CLAIRE applied) = false.
Proof.
  intros Hs Hold applied.
  assert (Hok : badge_ok applied).
  { apply reachable_badge_ok, (reachable_step s); [done|]. apply step_update_optimistic. }
  assert (Hunread := handleUpdateJob_optimistic_unread now job s).
  rw Hold in Hunread. fold applied in Hunread.
  split_and!.
  - rw Hunread. case_decide; [tauto|]. split; [tauto|]. intros [|]; [tauto|done].
  - intros Hview. apply Hok. by rw /applied handleUpdateJob_optimistic_view.
  - rw /App.setCurrentView /App.clearUnreadEffect.
    by destruct (decide (CLAIRE = App.currentView applied)).
  - rw /App.setCurrentView /App.clearUnreadEffect.
    destruct (decide (CLAIRE = App.currentView applied)); [by apply Hok|done].
Qed.

Lemma unread_badge_lifecycle_witness :
  let applied :=
    App.handleUpdateJob_optimistic Sample.tracking Sample.t0
      (Job.with_status REJECTED (Job.with_id "41" Sample.acme)) Sample.tracking in
  App.unreadClaire applied = true
  ∧ App.unreadClaire (App.setCurrentView CLAIRE applied) = false.
Proof.
  destruct (unread_badge_lifecycle Sample.t0
              (Job.with_status REJECTED (Job.with_id "41" Sample.acme))
              (Job.with_id "41" Sample.acme) Sample.tracking
              tracking_reachable eq_refl) as (Hraised & _ & _ & Hcleared).
  split; [|exact Hcleared].
  apply Hraised. left. split; [split; [done|by right]|done].
Defined.

End UpdateNotifies.

(** ** Updates from a handler that has outlived its render *)

Section StaleHandlers.

Import JobTracker JobTrackerAsync.

Implicit Types (s render : App.State) (job old : Job.t) (jt closure : JobTracker.State).

(** Run without interruption, the handlers are their parts in a row. *)
Lemma handleStatusChange_parts {A} now jobId st (r : Settled (PostgrestResponse A)) jt app :
  handleStatusChange now jobId st r jt app
  = handleStatusChange_settle jt app jobId st r jt
      (handleStatusChange_optimistic now jobId st app).
Proof.
  rw /handleStatusChange /handleStatusChange_settle /handleStatusChange_optimistic.
  by destruct (App.find_job jobId (App.jobs app)).
Qed.

Lemma handleRegenerate_parts {A} now response (r : Settled (PostgrestResponse A)) jt app :
  handleRegenerate now response r jt app
  = handleRegenerate_resume jt app now response r jt app.
Proof. done. Qed.

(** Whether [handleUpdateJob] speaks up, and whether it raises the
    badge, is decided on the collection and the view of the render it
    belongs to, not on the state its updates apply to. *)
Lemma handleUpdateJob_reads_its_render render now job old s :
  App.find_job (Job.id job) (App.jobs render) = Some old →
  let applied := App.handleUpdateJob_optimistic render now job s in
  length (App.claireMessages applied)
  = length (App.claireMessages s)
    + (if decide (notifiable (Job.status old) (Job.status job)) then 1 else 0)
  ∧ App.unreadClaire applied
    = (if decide (notifiable (Job.status old) (Job.status job)
                  ∧ App.currentView render ≠ CLAIRE)
       then true else App.unreadClaire s)
  ∧ App.currentView applied = App.currentView s.
Proof.
  intros Hold. rw /= /App.handleUpdateJob_optimistic Hold /notifiable.
  destruct (decide (Job.status old ≠ Job.status job)) as [Hne|Heq].
  - rw notification_messages notification_unread notification_currentView.
    split_and!; [|by repeat destruct (decide _); first [done | tauto]|done].
    destruct (Job.status job); rw ?length_app /=;
      repeat destruct (decide _); first [lia | exfalso; intuition congruence].
  - rw (decide_False (P := _ ∧ (_ ∨ _))); [|tauto].
    rw (decide_False (P := (_ ∧ _) ∧ _)); [|tauto].
    split_and!; [simpl; lia|done|done].
Qed.

(** C3 at a failing input: Regenerate is clicked on an accepted record;
    while the model is asked, the status is set to Interview; then the
    model answers. The regeneration writes the record of its closure, so
    the stored status goes from Interview to Accepted, and it compares
    that record with the collection of its closure, where the status was
    Accepted already: no message is appended. The same update issued by
    the handler of the current render appends one. *)
Lemma stale_regeneration_accepts_silently :
  selectedJob Race.opened = Some Race.hired
  ∧ App.jobs Race.loaded = [Race.hired]
  ∧ App.jobs Race.corrected.2 = [Job.with_status INTERVIEW Race.hired]
  ∧ notifiable INTERVIEW ACCEPTED
  ∧ (∃ jt' app',
       Race.regenerated = Returned (jt', app')
       ∧ App.jobs app' = [Job.with_coverLetter "Dear team," Race.hired]
       ∧ Job.status <$> App.jobs app' = [ACCEPTED]
       ∧ App.claireMessages app' = App.claireMessages Race.corrected.2
       ∧ App.claireMessages app' = [App.welcome])
  ∧ length (App.claireMessages
              (App.handleUpdateJob_optimistic Race.corrected.2 5000
                 (Job.with_coverLetter "Dear team," Race.hired) Race.corrected.2))
    = 2.
Proof.
  split_and!; [by vm_compute|by vm_compute|by vm_compute|by split; [|left]| |by vm_compute].
  eexists _, _. split_and!; by vm_compute.
Qed.

(** C8 at a failing input: the status of an accepted record is set to
    Interview and, while the remote update is pending and the detail
    panel still holds the record as accepted, Regenerate is clicked; then
    the chat is opened; then the model answers. The regeneration calls
    the [handleUpdateJob] of its render, which sees the status go from
    Interview to Accepted and the view it was rendered with, the
    applications list: it appends the message and raises the badge,
    while the chat is the active view. Nothing lowers it there. *)
Lemma stale_regeneration_raises_badge_in_chat :
  selectedJob Race.opened = Some Race.hired
  ∧ App.jobs Race.changing = [Job.with_status INTERVIEW Race.hired]
  ∧ App.currentView Race.changing = JOBS
  ∧ App.currentView Race.inChat = CLAIRE
  ∧ App.unreadClaire Race.inChat = false
  ∧ notifiable INTERVIEW ACCEPTED
  ∧ ∃ jt' app',
      Race.regeneratedInChat = Returned (jt', app')
      ∧ App.jobs app' = [Job.with_coverLetter "Dear team," Race.hired]
      ∧ App.claireMessages app'
        = App.claireMessages Race.inChat
            ++ [Message.mk "5000" model
                  (App.acceptedText (Job.with_coverLetter "Dear team," Race.hired))]
      ∧ App.currentView app' = CLAIRE
      ∧ App.unreadClaire app' = true
      ∧ App.unreadClaire (App.setCurrentView CLAIRE app') = true.
Proof.
  split_and!;
    [by vm_compute|by vm_compute|by vm_compute|by vm_compute|by vm_compute
    |by split; [|left]|].
  eexists _, _. split_and!; by vm_compute.
Qed.

End StaleHandlers.

(** ** The view partitioner *)

Section Partitioner.

Import JobTracker.

Implicit Types (job j : Job.t) (jobs : list Job.t).

(** Every record is kept by exactly one of the two modes. *)
Lemma keepsJob_exclusive job :
  keepsJob offers job = negb (keepsJob applications job).
Proof. rw /keepsJob /=. by destruct (originOrLegacy job). Qed.

Lemma displayedJobs_offers_complement jobs :
  displayedJobs offers jobs = filter (λ j, ¬ keepsJob applications j) jobs.
Proof.
  apply list_filter_iff. intros j. rw keepsJob_exclusive.
  apply negb_True.
Qed.

(** C5: the applications view and the offers view split the collection:
    together they are the input as a multiset (of records, and so of
    identities), no record is in both, every record is in one, each view
    keeps the order of the input, and when identities are distinct no
    identity is in both. *)
Theorem displayedJobs_partition jobs :
  let apps := displayedJobs applications jobs in
  let offs := displayedJobs offers jobs in
  (ids apps ++ ids offs ≡ₚ ids jobs)
  ∧ (apps ++ offs ≡ₚ jobs)
  ∧ length apps + length offs = length jobs
  ∧ (∀ j, ¬ (j ∈ apps ∧ j ∈ offs))
  ∧ (∀ j, j ∈ jobs → j ∈ apps ∨ j ∈ offs)
  ∧ apps `sublist_of` jobs
  ∧ offs `sublist_of` jobs
  ∧ (NoDup (ids jobs) → ∀ x, ¬ (x ∈ ids apps ∧ x ∈ ids offs)).
Proof.
  intros apps offs.
  assert (Hperm : apps ++ offs ≡ₚ jobs).
  { rw /apps /offs displayedJobs_offers_complement.
    apply (filter_app_complement (λ j, keepsJob applications j)). }
  assert (Hexcl : ∀ j, ¬ (j ∈ apps ∧ j ∈ offs)).
  { intros j [Ha Ho].
    apply (list_elem_of_filter (λ j, keepsJob applications j)) in Ha as [Ha _].
    apply (list_elem_of_filter (λ j, keepsJob offers j)) in Ho as [Ho _].
    rw keepsJob_exclusive in Ho. by destruct (keepsJob applications j). }
  split_and!; [|done| |done| | | |].
  - rw /ids -fmap_app. by apply fmap_Permutation.
  - rw -length_app. by apply Permutation_length.
  - intros j Hj. setoid_rewrite <- Hperm in Hj. by apply elem_of_app in Hj.
  - apply (sublist_filter (λ j, keepsJob applications j)).
  - apply (sublist_filter (λ j, keepsJob offers j)).
  - intros Hnodup x [Ha Ho].
    assert (Hids : ids apps ++ ids offs ≡ₚ ids jobs).
    { rw /ids -fmap_app. by apply fmap_Permutation. }
    setoid_rewrite <- Hids in Hnodup.
    apply NoDup_app in Hnodup as (_ & Hdisj & _). by apply (Hdisj x).
Qed.

Lemma displayedJobs_partition_witness :
  displayedJobs applications Sample.mixed ++ displayedJobs offers Sample.mixed
  ≡ₚ Sample.mixed.
Proof. apply (displayedJobs_partition Sample.mixed). Defined.

Example displayedJobs_mixed :
  ids (displayedJobs applications Sample.mixed) = ["1"; "7"; "5"]
  ∧ ids (displayedJobs offers Sample.mixed) = ["2"; "4"].
Proof. by vm_compute. Qed.

End Partitioner.

(** ** Which records count as offers *)

Section Classification.

Import JobTracker.

Implicit Types (job sel : Job.t) (jt : JobTracker.State) (app : App.State).

(** What [handleRegenerate] does with the selected record: the field it
    writes is chosen by [isJobOfferType]. *)
Lemma handleRegenerate_writes {A} now response (r : Settled (PostgrestResponse A))
    jt app sel :
  selectedJob jt = Some sel →
  ∃ text,
    let updated :=
      if isJobOfferType sel
      then Job.with_interviewGuide text sel
      else Job.with_coverLetter text sel in
    handleRegenerate now response r jt app
    = Returned (setSelectedJob (Some updated) jt, App.handleUpdateJob now updated r app)
    ∧ text = match response with
             | Fulfilled t =>
                 opt_or_else t
                   (if isJobOfferType sel
                    then "Could not generate interview guide. Please try again."
                    else "Could not generate cover letter. Please try again.")
             | Rejected _ => failurePlaceholder (isJobOfferType sel)
             end.
Proof.
  intros Hsel. rw /handleRegenerate Hsel.
  destruct (isJobOfferType sel), response; eexists; by split.
Qed.

(** C4, as the code has it: for a record whose origin is present, the
    list partitioner goes by origin alone, while the regeneration
    controller treats the record as an offer when its origin is offer or
    its status is Offer, and writes the interview guide in that case and
    the cover letter otherwise. *)
Theorem classification_by_component job o :
  Job.origin job = Some o →
  (∀ mode, keepsJob mode job
           = bool_decide (o = if isOffersMode mode then offer else application))
  ∧ isJobOfferType job = bool_decide (o = offer) || bool_decide (Job.status job = OFFER)
  ∧ (∀ now response (r : Settled (PostgrestResponse ())) jt app,
       selectedJob jt = Some job →
       ∃ text,
         let updated :=
           if bool_decide (o = offer) || bool_decide (Job.status job = OFFER)
           then Job.with_interviewGuide text job
           else Job.with_coverLetter text job in
         handleRegenerate now response r jt app
         = Returned (setSelectedJob (Some updated) jt,
                     App.handleUpdateJob now updated r app)).
Proof.
  intros Ho.
  assert (Htype : isJobOfferType job
                  = bool_decide (o = offer) || bool_decide (Job.status job = OFFER)).
  { rw /isJobOfferType Ho. f_equal. apply bool_decide_ext. naive_solver. }
  split_and!; [|done|].
  - intros mode. rw /keepsJob /originOrLegacy Ho. by destruct (isOffersMode mode).
  - intros now response r jt app Hsel.
    destruct (handleRegenerate_writes now response r jt app job Hsel) as (text & Hrun & _).
    exists text. by rw -Htype.
Qed.

Lemma classification_by_component_witness :
  keepsJob applications Sample.promoted = true
  ∧ keepsJob offers Sample.promoted = false
  ∧ isJobOfferType Sample.promoted = true.
Proof.
  destruct (classification_by_component Sample.promoted application eq_refl)
    as (Hlist & Htype & _).
  split_and!; [by rw Hlist|by rw Hlist|by rw Htype].
Defined.

(** A record without origin: both components fall back on the status. *)
Lemma classification_legacy job :
  Job.origin job = None →
  (∀ mode, keepsJob mode job
           = bool_decide ((if decide (Job.status job = OFFER) then offer else application)
                          = if isOffersMode mode then offer else application))
  ∧ isJobOfferType job = bool_decide (Job.status job = OFFER).
Proof.
  intros Hnone. split.
  - intros mode. rw /keepsJob /originOrLegacy Hnone. by destruct (isOffersMode mode).
  - by rw /isJobOfferType Hnone.
Qed.

(** C4 as stated fails on an application that has reached the status
    Offer: the partitioner lists it under applications, the detail panel
    and the regeneration controller treat it as an offer, and a
    regeneration writes its interview guide and leaves the cover letter. *)
Lemma promoted_application_is_regenerated_as_offer :
  Job.origin Sample.promoted = Some application
  ∧ Job.status Sample.promoted = OFFER
  ∧ displayedJobs applications [Sample.promoted] = [Sample.promoted]
  ∧ displayedJobs offers [Sample.promoted] = []
  ∧ isJobOfferType Sample.promoted = true
  ∧ displayContent Sample.promotedOpen = Job.interviewGuide Sample.promoted
  ∧ ∃ jt' app',
      handleRegenerate Sample.t0 (Fulfilled (Some "Guide")) Sample.accepted
        Sample.promotedOpen Sample.promotedStored
      = Returned (jt', app')
      ∧ App.jobs app' = [Job.with_interviewGuide "Guide" Sample.promoted]
      ∧ App.jobs app' ≠ [Job.with_coverLetter "Guide" Sample.promoted].
Proof.
  split_and!; try by vm_compute.
  eexists _, _. split_and!; [by vm_compute|by vm_compute|by vm_compute].
Qed.

End Classification.

(** ** Generation that fails *)

Section Generation.

Import JobTracker.

Implicit Types (job sel : Job.t) (jt : JobTracker.State) (app : App.State).

(** Neither wrapper ever throws, whatever the model call does. *)
Lemma generation_never_throws company role description response :
  (∃ text, GeminiService.generateCoverLetter company role description response
           = Returned text ∧ text ≠ "")
  ∧ (∃ text, GeminiService.generateInterviewGuide company role description response
             = Returned text ∧ text ≠ "").
Proof.
  split; destruct response as [[t|]|e]; eexists; (split; [done|]); try done;
    rw /opt_or_else /or_else /truthy; case_bool_decide; done.
Qed.

(** Neither handler of the tracker throws either. *)
Lemma handlers_never_throw {A} mode today now response r1
    (r2 : Settled (PostgrestResponse A)) jt app :
  (∃ st, handleCreateJob mode today now response r1 jt app = Returned st)
  ∧ (∃ st, handleRegenerate now response r2 jt app = Returned st).
Proof.
  split.
  - rw /handleCreateJob. case_match; by eexists.
  - destruct (selectedJob jt) as [sel|] eqn:Hsel.
    + destruct (handleRegenerate_writes now response r2 jt app sel Hsel)
        as (text & Hrun & _).
      by eexists.
    + rw /handleRegenerate Hsel. by eexists.
Qed.

Lemma activeContent_with_id x job :
  activeContent (Job.with_id x job) = activeContent job.
Proof. done. Qed.





(** The optimistic replacement writes the submitted record over every
    record of its identity. *)
Lemma handleUpdateJob_writes {A} now job (r : Settled (PostgrestResponse A)) app j :
  j ∈ App.jobs (App.handleUpdateJob now job r app) → Job.id j = Job.id job → j = job.
Proof.
  destruct (handleUpdateJob_no_rollback now job r app) as [_ ->].
  intros (j0 & -> & Hj0)%list_elem_of_fmap. by case_decide.
Qed.

Lemma handleUpdateJob_stored {A} now job (r : Settled (PostgrestResponse A)) app :
  Job.id job ∈ ids (App.jobs app) → job ∈ App.jobs (App.handleUpdateJob now job r app).
Proof.
  destruct (handleUpdateJob_no_rollback now job r app) as [_ ->].
  intros (j0 & Hid & Hj0)%list_elem_of_fmap.
  apply list_elem_of_fmap. exists j0. by rw decide_True.
Qed.




End Generation.

(** ** The autosave timer *)

Section Autosave.

Implicit Types (s : App.State) (t : Timer) (f : Resume.t → Resume.t).

Lemma guard_spec s :
  negb (bool_decide (is_Some (App.session s)))
  || negb (truthy (Resume.fullName (App.resume s))) = bool_decide (¬ saves s).
Proof.
  rw /saves /truthy.
  repeat case_bool_decide; simpl; try done; tauto.
Qed.

Lemma cleanup_clears_all s :
  owned s →
  match App.autosaveCleanup s with
  | Some tid => App.clearTimeout tid (App.timers s)
  | None => App.timers s
  end = [].
Proof.
  intros Howned. destruct (App.autosaveCleanup s) as [tid|] eqn:Hc.
  - apply filter_none. intros t Ht Hne. apply Howned in Ht. congruence.
  - destruct (App.timers s) as [|t l] eqn:Ht; [done|].
    specialize (Howned t). rw Ht Hc in Howned. by specialize (Howned ltac:(by left)).
Qed.

(** The effect cancels what is pending and schedules one timeout, or
    none when the guard stops it. *)
Lemma autosaveEffect_timers now s :
  owned s →
  App.timers (App.autosaveEffect now s)
  = (if decide (saves s)
     then [mkTimer (App.nextTimer s) (now + 2000) (App.resume s)] else [])
  ∧ App.autosaveCleanup (App.autosaveEffect now s)
    = (if decide (saves s) then Some (App.nextTimer s) else None)
  ∧ App.saved (App.autosaveEffect now s) = App.saved s
  ∧ App.session (App.autosaveEffect now s) = App.session s
  ∧ App.resume (App.autosaveEffect now s) = App.resume s.
Proof.
  intros Howned. rw /App.autosaveEffect guard_spec cleanup_clears_all //.
  case_bool_decide; by case_decide.
Qed.

Lemma advance_owned now s : owned s → owned (App.advance now s).
Proof.
  intros Howned t Ht. apply Howned.
  by apply (list_elem_of_filter (λ t, ¬ (deadline t ≤ now)%N)) in Ht as [_ Ht].
Qed.

(** Time that stops short of every deadline changes nothing. *)
Lemma advance_early now s :
  (∀ t, t ∈ App.timers s → (now < deadline t)%N) →
  App.saved (App.advance now s) = App.saved s
  ∧ App.timers (App.advance now s) = App.timers s.
Proof.
  intros Hearly. rw /App.advance /=. split.
  - rw (filter_none (λ t, (deadline t ≤ now)%N)).
    + by rw app_nil_r.
    + intros t Ht Hdue. specialize (Hearly t Ht). lia.
  - induction (App.timers s) as [|t l IH]; [done|].
    rw filter_cons_True.
    + rw IH //. intros t' Ht'. apply Hearly. by right.
    + specialize (Hearly t ltac:(by left)). lia.
Qed.

(** A mutation of the resume: what is due runs first, then the effect
    replaces whatever is pending. *)
Lemma setResume_spec now f s :
  owned s →
  let s' := App.setResume now f s in
  App.resume s' = f (App.resume s)
  ∧ App.session s' = App.session s
  ∧ App.saved s' = App.saved (App.advance now s)
  ∧ App.timers s'
    = (if decide (is_Some (App.session s) ∧ Resume.fullName (f (App.resume s)) ≠ "")
       then [mkTimer (App.nextTimer s) (now + 2000) (f (App.resume s))] else [])
  ∧ owned s'.
Proof.
  intros Howned s'.
  destruct (autosaveEffect_timers now
              (App.mkState (App.session (App.advance now s))
                 (App.currentView (App.advance now s)) (App.jobs (App.advance now s))
                 (App.claireMessages (App.advance now s))
                 (App.unreadClaire (App.advance now s))
                 (f (App.resume (App.advance now s))) (App.console (App.advance now s))
                 (App.timers (App.advance now s)) (App.nextTimer (App.advance now s))
                 (App.autosaveCleanup (App.advance now s))
                 (App.saved (App.advance now s))))
    as (Htimers & Hcleanup & Hsaved & Hsession & Hresume).
  { by apply advance_owned. }
  fold (App.setResume now f s) in Htimers, Hcleanup, Hsaved, Hsession, Hresume.
  fold s' in Htimers, Hcleanup, Hsaved, Hsession, Hresume.
  split_and!; [done..| |].
  - rw Htimers /saves /=. by repeat case_decide.
  - intros t. rw Htimers Hcleanup. case_decide; [|by intros ?%elem_of_nil].
    by intros ->%list_elem_of_singleton.
Qed.

(** After a mutation, what is pending is what the guard let through. *)
Lemma setResume_settled now f s :
  owned s →
  let s' := App.setResume now f s in
  (∀ t, t ∈ App.timers s' → deadline t = (now + 2000)%N)
  ∧ callback_resume <$> App.timers s'
    = (if decide (saves s') then [App.resume s'] else []).
Proof.
  intros Howned s'.
  destruct (setResume_spec now f s Howned)
    as (Hresume & Hsession & _ & Htimers & _).
  fold s' in Hresume, Hsession, Htimers. rw Htimers. split.
  - intros t. case_decide; [|by intros ?%elem_of_nil].
    by intros ->%list_elem_of_singleton.
  - rw (decide_ext (saves s')
          (is_Some (App.session s) ∧ Resume.fullName (f (App.resume s)) ≠ "")).
    + by case_decide; rw /= ?Hresume.
    + by rw /saves Hresume Hsession.
Qed.

Lemma merge_sort_short {A} (R : relation A) `{!RelDecision R} (l : list A) :
  (length l ≤ 1)%nat → merge_sort R l = l.
Proof. destruct l as [|a [|b l]]; [done|done|]. simpl. lia. Qed.

(** Time that reaches every deadline runs everything that is pending. *)
Lemma advance_all_due now s :
  (∀ t, t ∈ App.timers s → (deadline t ≤ now)%N) →
  (length (App.timers s) ≤ 1)%nat →
  App.saved (App.advance now s) = App.saved s ++ (callback_resume <$> App.timers s)
  ∧ App.timers (App.advance now s) = [].
Proof.
  intros Hdue Hshort. rw /App.advance /=.
  assert (Hall : filter (λ t, (deadline t ≤ now)%N) (App.timers s) = App.timers s).
  { induction (App.timers s) as [|t l IH]; [done|].
    rw filter_cons_True.
    + rw IH //; [|simpl in Hshort; lia]. intros t' Ht'. apply Hdue. by right.
    + apply Hdue. by left. }
  split.
  - by rw Hall merge_sort_short.
  - apply filter_none. intros t Ht Hlate. by apply Hlate, Hdue.
Qed.

(** A run of edits, each less than 2000ms after the one before, from a
    state whose pending timeout (if any) was scheduled at [start] by the
    effect of the current resume: nothing is saved on the way, and the
    state at the end is again of that kind. *)
Lemma burst_debounces edits :
  ∀ start s,
    owned s →
    (∀ t, t ∈ App.timers s → deadline t = (start + 2000)%N) →
    callback_resume <$> App.timers s
    = (if decide (saves s) then [App.resume s] else []) →
    Forall (λ e, (e.1 < 2000)%N) edits →
    let last := (App.burst start edits s).1 in
    let s' := (App.burst start edits s).2 in
    owned s'
    ∧ (∀ t, t ∈ App.timers s' → deadline t = (last + 2000)%N)
    ∧ callback_resume <$> App.timers s'
      = (if decide (saves s') then [App.resume s'] else [])
    ∧ App.saved s' = App.saved s
    ∧ App.session s' = App.session s
    ∧ App.resume s' = foldl (λ r e, e.2 r) (App.resume s) edits.
Proof.
  induction edits as [|[gap f] rest IH]; intros start s Howned Hdead Hcb Hgaps.
  { by split_and!. }
  apply Forall_cons in Hgaps as [Hgap Hgaps]. simpl in Hgap.
  destruct (setResume_spec (start + gap) f s Howned)
    as (Hresume & Hsession & Hsaved & Htimers & Howned1).
  destruct (advance_early (start + gap) s) as [Hquiet _].
  { intros t Ht. rw (Hdead t Ht). lia. }
  destruct (setResume_settled (start + gap) f s Howned) as [Hdead1 Hcb1].
  specialize (IH (start + gap)%N (App.setResume (start + gap) f s) Howned1).
  destruct IH as (H1 & H2 & H3 & H4 & H5 & H6); [done|done|done|].
  simpl. split_and!; [done|done|done|by rw H4 Hsaved Hquiet|by rw H5|by rw H6 Hresume].
Qed.

(** C9, as the code has it: a burst of resume edits that starts with no
    persist pending, each edit less than 2000ms after the one before,
    saves nothing while it lasts, and once 2000ms have passed after the
    last edit it has issued exactly one persistence call, carrying the
    resume the last edit produced, provided a session exists and that
    resume has a name; otherwise it has issued none. *)
Theorem autosave_debounce start gap f rest now s :
  App.timers s = [] →
  Forall (λ e, (e.1 < 2000)%N) rest →
  let edits := (gap, f) :: rest in
  let last := (App.burst start edits s).1 in
  let s' := (App.burst start edits s).2 in
  (last + 2000 ≤ now)%N →
  App.resume s' = foldl (λ r e, e.2 r) (App.resume s) edits
  ∧ App.saved s' = App.saved s
  ∧ (∀ t, t ∈ App.timers s' →
          deadline t = (last + 2000)%N ∧ callback_resume t = App.resume s')
  ∧ App.saved (App.advance now s')
    = App.saved s
      ++ (if decide (is_Some (App.session s) ∧ Resume.fullName (App.resume s') ≠ "")
          then [App.resume s'] else [])
  ∧ App.timers (App.advance now s') = [].
Proof.
  intros Hidle Hgaps edits last s' Hnow.
  assert (Howned : owned s) by (intros t; rw Hidle; by intros ?%elem_of_nil).
  destruct (setResume_spec (start + gap) f s Howned)
    as (Hresume & Hsession & Hsaved & Htimers & Howned1).
  destruct (advance_early (start + gap) s) as [Hquiet _].
  { intros t. rw Hidle. by intros ?%elem_of_nil. }
  destruct (setResume_settled (start + gap) f s Howned) as [Hdead1 Hcb1].
  destruct (burst_debounces rest (start + gap)%N (App.setResume (start + gap) f s))
    as (H1 & H2 & H3 & H4 & H5 & H6); [done..|].
  change (App.burst (start + gap) rest (App.setResume (start + gap) f s))
    with (App.burst start edits s) in H1, H2, H3, H4, H5, H6.
  fold last in H2. fold s' in H1, H2, H3, H4, H5, H6.
  assert (Hshort : (length (App.timers s') ≤ 1)%nat).
  { rw -(length_fmap callback_resume) H3. case_decide; simpl; lia. }
  destruct (advance_all_due now s') as [Hfired Hnone]; [|done|].
  { intros t Ht. rw (H2 t Ht). lia. }
  split_and!.
  - by rw H6 Hresume.
  - by rw H4 Hsaved Hquiet.
  - intros t Ht. split; [by apply H2|].
    assert (Hin : callback_resume t ∈ callback_resume <$> App.timers s').
    { by apply list_elem_of_fmap_2. }
    rw H3 in Hin. case_decide; [|by apply elem_of_nil in Hin].
    by apply list_elem_of_singleton in Hin.
  - rw Hfired H3 H4 Hsaved Hquiet. f_equal.
    apply decide_ext. by rw /saves H5 Hsession.
  - done.
Qed.

Lemma autosave_debounce_witness :
  let last := (App.burst 1000 Sample.nameEdits Sample.signedIn).1 in
  let s' := (App.burst 1000 Sample.nameEdits Sample.signedIn).2 in
  App.saved s' = []
  ∧ App.saved (App.advance (last + 2000) s')
    = [Sample.setFullName "Ali" Resume.initial].
Proof.
  destruct (autosave_debounce 1000 0 (Sample.setFullName "A")
              [(700%N, Sample.setFullName "Al"); (700%N, Sample.setFullName "Ali")]
              4400 Sample.signedIn eq_refl)
    as (_ & Hquiet & _ & Hsaved & _).
  - repeat constructor; by_evaluation.
  - by_evaluation.
  - split; [exact Hquiet|exact Hsaved].
Defined.

(** C9 as stated fails on a burst that ends with no name in the resume:
    three edits of the e-mail field of a resume whose name is still empty
    cancel one another as usual, and the last one schedules nothing, so
    no persistence call is issued at all. *)
Lemma autosave_unnamed_burst_never_saved :
  let last := (App.burst 1000 Sample.emailEdits Sample.signedIn).1 in
  let s' := (App.burst 1000 Sample.emailEdits Sample.signedIn).2 in
  App.timers Sample.signedIn = []
  ∧ is_Some (App.session Sample.signedIn)
  ∧ (Forall (λ e, (e.1 < 2000)%N) Sample.emailEdits)
  ∧ Resume.email (App.resume s') = "a@b.c"
  ∧ App.saved (App.advance (last + 2000) s') = []
  ∧ length (App.saved (App.advance (last + 2000) s')) ≠ 1
  ∧ (∀ now, App.saved (App.advance now s') = []).
Proof.
  split_and!; [done|by eexists|repeat constructor; by_evaluation|done|done|done|].
  intros now. by destruct (advance_early now (App.burst 1000 Sample.emailEdits Sample.signedIn).2)
    as [-> _]; [intros t ?%elem_of_nil|].
Qed.

End Autosave.

(** ** The autosave guard over the life of the application *)

Section AutosaveGuard.

Implicit Types (s : App.State) (t : Timer) (f : Resume.t → Resume.t).

Lemma advance_keeps_autosave_ok now s : autosave_ok s → autosave_ok (App.advance now s).
Proof.
  intros (Howned & Htimers & Hsaved). split_and!.
  - by apply advance_owned.
  - intros t Ht. apply Htimers.
    by apply (list_elem_of_filter (λ t, ¬ (deadline t ≤ now)%N)) in Ht as [_ Ht].
  - intros r [Hr|Hr]%elem_of_app; [by apply Hsaved|].
    apply list_elem_of_fmap in Hr as (t & -> & Ht).
    apply Htimers. setoid_rewrite merge_sort_Permutation in Ht.
    by apply (list_elem_of_filter (λ t, (deadline t ≤ now)%N)) in Ht as [_ Ht].
Qed.

Lemma autosaveEffect_keeps_autosave_ok now s :
  autosave_ok s → autosave_ok (App.autosaveEffect now s).
Proof.
  intros (Howned & Htimers & Hsaved).
  destruct (autosaveEffect_timers now s Howned) as (Ht & Hc & Hs & _ & _).
  rw /autosave_ok /owned Ht Hc Hs. split_and!; [| |done].
  - intros t. case_decide; [|by intros ?%elem_of_nil].
    by intros ->%list_elem_of_singleton.
  - intros t. case_decide as Hguard; [|by intros ?%elem_of_nil].
    intros ->%list_elem_of_singleton. by destruct Hguard.
Qed.

Lemma step_keeps_autosave_ok s s' : step s s' → autosave_ok s → autosave_ok s'.
Proof.
  intros Hstep Hok. destruct Hstep.
  - done.
  - rw /App.handleAddJob_settle. by destruct (App.insert_result r).
  - rw /App.handleUpdateJob_optimistic /App.handleJobStatusChangeNotification.
    by repeat case_match.
  - by destruct r.
  - done.
  - by destruct r.
  - rw /App.setCurrentView /App.clearUnreadEffect. by repeat case_match.
  - apply autosaveEffect_keeps_autosave_ok.
    by apply (advance_keeps_autosave_ok now) in Hok.
  - apply autosaveEffect_keeps_autosave_ok.
    by apply (advance_keeps_autosave_ok now) in Hok.
  - by apply advance_keeps_autosave_ok.
Qed.

Lemma reachable_autosave_ok s : reachable s → autosave_ok s.
Proof.
  rw /reachable. revert s. apply rtc_ind_r.
  - split_and!; by intros ? ?%elem_of_nil.
  - intros s1 s2 _ Hstep IH. by eapply step_keeps_autosave_ok.
Qed.

Lemma signedIn_reachable : reachable Sample.signedIn.
Proof. apply (reachable_step _ _ reachable_initial), step_session. Qed.

(** When a session exists, a mutation schedules a persist exactly when
    the resume it produces has a name: no other field is looked at. *)
Lemma autosave_guard_is_fullName now f s :
  reachable s →
  is_Some (App.session s) →
  App.timers (App.setResume now f s)
  = if decide (Resume.fullName (f (App.resume s)) ≠ "")
    then [mkTimer (App.nextTimer s) (now + 2000) (f (App.resume s))] else [].
Proof.
  intros [Howned _]%reachable_autosave_ok Hsession.
  destruct (setResume_spec now f s Howned) as (_ & _ & _ & -> & _).
  apply decide_ext. tauto.
Qed.

(** C10: a mutation that leaves the resume without a name schedules no
    persist and cancels the pending one, whatever the other fields hold;
    no persistence call is issued from that state however long one waits;
    and no resume without a name is ever among the calls issued. *)
Theorem autosave_skips_unnamed now f s :
  reachable s →
  Resume.fullName (f (App.resume s)) = "" →
  let s' := App.setResume now f s in
  App.resume s' = f (App.resume s)
  ∧ App.timers s' = []
  ∧ App.saved s' = App.saved (App.advance now s)
  ∧ (∀ later, App.saved (App.advance later s') = App.saved s')
  ∧ (∀ r, r ∈ App.saved s' → Resume.fullName r ≠ "").
Proof.
  intros Hs Hname s'.
  destruct (reachable_autosave_ok s Hs) as [Howned _].
  destruct (setResume_spec now f s Howned) as (Hresume & _ & Hsaved & Htimers & _).
  fold s' in Hresume, Hsaved, Htimers.
  rw decide_False in Htimers; [|by intros [_ ?]].
  split_and!; [done..| |].
  - intros later. destruct (advance_early later s') as [-> _]; [|done].
    intros t. rw Htimers. by intros ?%elem_of_nil.
  - apply (reachable_autosave_ok s'), (reachable_step s); [done|apply step_resume].
Qed.

Lemma autosave_skips_unnamed_witness :
  let s' := App.setResume 1000 (Sample.setEmail "a@b.c") Sample.signedIn in
  Resume.email (App.resume s') = "a@b.c"
  ∧ App.timers s' = []
  ∧ ∀ later, App.saved (App.advance later s') = App.saved s'.
Proof.
  destruct (autosave_skips_unnamed 1000 (Sample.setEmail "a@b.c") Sample.signedIn
              signedIn_reachable eq_refl) as (Hresume & Htimers & _ & Hnever & _).
  split_and!; [by rw Hresume|exact Htimers|exact Hnever].
Defined.

End AutosaveGuard.

(** * Further properties of the code *)

(** ** The job store: delete, update, and how the three compose *)

Section StoreOperations.

Implicit Types (s : App.State) (job j : Job.t) (l : list Job.t) (x : string).

Lemma filter_other_ids_absent x l : x ∉ ids (filter (λ j, Job.id j ≠ x) l).
Proof.
  rw /ids list_elem_of_fmap. intros (j & Hid & Hj).
  apply filter_other_ids_spec in Hj as [Hne _]. by apply Hne.
Qed.

(** X1: a delete removes every record of the given identity and nothing
    else, keeps the order of the rest, changes nothing when the identity
    is unknown, and changes nothing more when repeated; the answer of the
    store plays no part. *)
Theorem handleDeleteJob_removes {A B} x (r : Settled (PostgrestResponse A))
    (r' : Settled (PostgrestResponse B)) s :
  let after := App.jobs (App.handleDeleteJob x r s) in
  (x ∉ ids after)
  ∧ (∀ j, j ∈ after ↔ Job.id j ≠ x ∧ j ∈ App.jobs s)
  ∧ after `sublist_of` App.jobs s
  ∧ (x ∉ ids (App.jobs s) → after = App.jobs s)
  ∧ App.jobs (App.handleDeleteJob x r' (App.handleDeleteJob x r s)) = after.
Proof.
  intros after.
  assert (Hafter : after = filter (λ j, Job.id j ≠ x) (App.jobs s)).
  { apply handleDeleteJob_no_rollback. }
  rw handleDeleteJob_no_rollback -/after Hafter. split_and!.
  - apply filter_other_ids_absent.
  - intros j. apply filter_other_ids_spec.
  - apply (sublist_filter (λ j, Job.id j ≠ x)).
  - apply filter_other_ids_fresh.
  - apply filter_other_ids_fresh, filter_other_ids_absent.
Qed.

Lemma replace_by_id_ids job l :
  ids ((λ j, if decide (Job.id j = Job.id job) then job else j) <$> l) = ids l.
Proof.
  rw /ids -list_fmap_compose. apply list_fmap_ext. intros _ j _ =>/=.
  by case_decide.
Qed.

Lemma replace_by_id_twice job l :
  (λ j, if decide (Job.id j = Job.id job) then job else j)
    <$> ((λ j, if decide (Job.id j = Job.id job) then job else j) <$> l)
  = (λ j, if decide (Job.id j = Job.id job) then job else j) <$> l.
Proof.
  rw -list_fmap_compose. apply list_fmap_ext. intros _ j _ =>/=.
  destruct (decide (Job.id j = Job.id job)) as [Heq|Hne].
  - by rw decide_True.
  - by rw decide_False.
Qed.

(** X2: an update never adds, removes or moves a record: the identities
    of the collection are the same, in the same order. It writes the
    submitted record over every record of its identity, leaves the
    collection as it is when no record has that identity, and changes
    nothing more when repeated. *)
Theorem handleUpdateJob_keeps_identities {A B} now now' job
    (r : Settled (PostgrestResponse A)) (r' : Settled (PostgrestResponse B)) s :
  let after := App.jobs (App.handleUpdateJob now job r s) in
  ids after = ids (App.jobs s)
  ∧ length after = length (App.jobs s)
  ∧ (∀ j, j ∈ after → Job.id j = Job.id job → j = job)
  ∧ (∀ j, j ∈ App.jobs s → Job.id j ≠ Job.id job → j ∈ after)
  ∧ (Job.id job ∉ ids (App.jobs s) → after = App.jobs s)
  ∧ App.jobs (App.handleUpdateJob now' job r' (App.handleUpdateJob now job r s)) = after.
Proof.
  intros after.
  destruct (handleUpdateJob_no_rollback now job r s) as [_ Hafter].
  fold after in Hafter.
  split_and!.
  - rw Hafter. apply replace_by_id_ids.
  - by rw Hafter length_fmap.
  - intros j. apply handleUpdateJob_writes.
  - intros j Hj Hne. rw Hafter. apply list_elem_of_fmap. exists j.
    by rw decide_False.
  - intros Hfresh. rw Hafter. by apply replace_id_fresh.
  - destruct (handleUpdateJob_no_rollback now' job r'
                (App.handleUpdateJob now job r s)) as [_ ->].
    rw -/after Hafter. apply replace_by_id_twice.
Qed.

Lemma handleAddJob_success_jobs now job r x s :
  App.insert_result r = Returned x →
  Date_now_toString now ∉ ids (App.jobs s) →
  App.jobs (App.handleAddJob now job r s) = Job.with_id x job :: App.jobs s.
Proof.
  intros Hr Hfresh. rw /App.handleAddJob /App.handleAddJob_settle Hr.
  cbn [App.jobs App.setJobs App.handleAddJob_optimistic].
  rw fmap_cons decide_True // replace_id_fresh //.
Qed.

(** X3: adding a record and then deleting it by the identity the store
    gave it restores the collection, when neither that identity nor the
    temporary one was carried by an earlier record. *)
Theorem add_then_delete_restores {A} now job r x (rd : Settled (PostgrestResponse A)) s :
  App.insert_result r = Returned x →
  Date_now_toString now ∉ ids (App.jobs s) →
  x ∉ ids (App.jobs s) →
  App.jobs (App.handleDeleteJob x rd (App.handleAddJob now job r s)) = App.jobs s.
Proof.
  intros Hr Htemp Hx.
  rw handleDeleteJob_no_rollback (handleAddJob_success_jobs now job r x) //.
  rw filter_cons_False; [|intros Hne; by apply Hne]. by apply filter_other_ids_fresh.
Qed.

Lemma add_then_delete_restores_witness :
  App.jobs
    (App.handleDeleteJob "42" Sample.accepted
       (App.handleAddJob Sample.t0 Sample.globex (Sample.inserted "42") Sample.oneJob))
  = App.jobs Sample.oneJob.
Proof.
  apply (add_then_delete_restores Sample.t0 Sample.globex (Sample.inserted "42") "42"
           Sample.accepted Sample.oneJob eq_refl); by_evaluation.
Defined.

(** X4: when no earlier record carries the temporary identity, a record
    deleted by that identity while its insert is still pending stays out
    of the collection when the insert succeeds: the delete gives back the
    collection from before the add, and the swap finds no record of the
    temporary identity, so the record the store now holds is not shown. *)
Theorem delete_while_pending_wins {A} now job r x (rd : Settled (PostgrestResponse A)) s :
  App.insert_result r = Returned x →
  Date_now_toString now ∉ ids (App.jobs s) →
  let pending := App.handleAddJob_optimistic now job s in
  let deleted := App.handleDeleteJob (Date_now_toString now) rd pending in
  App.jobs deleted = App.jobs s
  ∧ App.jobs (App.handleAddJob_settle now job r deleted) = App.jobs s.
Proof.
  intros Hr Hfresh pending deleted.
  assert (Hdeleted : App.jobs deleted = App.jobs s).
  { rw /deleted handleDeleteJob_no_rollback /=.
    rw filter_cons_False; [|intros Hne; by apply Hne]. by apply filter_other_ids_fresh. }
  split; [done|].
  rw /App.handleAddJob_settle Hr. cbn [App.jobs App.setJobs].
  rw Hdeleted. by apply replace_id_fresh.
Qed.

Lemma delete_while_pending_wins_witness :
  App.jobs
    (App.handleAddJob_settle Sample.t0 Sample.globex (Sample.inserted "42")
       (App.handleDeleteJob "1700000000000" Sample.accepted
          (App.handleAddJob_optimistic Sample.t0 Sample.globex Sample.oneJob)))
  = App.jobs Sample.oneJob.
Proof.
  apply (delete_while_pending_wins Sample.t0 Sample.globex (Sample.inserted "42") "42"
           Sample.accepted Sample.oneJob eq_refl).
  by_evaluation.
Defined.

End StoreOperations.

(** ** What the handlers of App never undo *)

Section Monotone.

Implicit Types (s : App.State).

Lemma step_messages_grow s s' :
  step s s' → App.claireMessages s `prefix_of` App.claireMessages s'.
Proof.
  intros Hstep. destruct Hstep.
  - done.
  - rw /App.handleAddJob_settle. by destruct (App.insert_result r).
  - rw /App.handleUpdateJob_optimistic.
    destruct (App.find_job _ _); [|done]. case_decide; [|done].
    rw notification_messages. destruct (Job.status job); try done;
      by apply prefix_app_r.
  - by destruct r.
  - done.
  - by destruct r.
  - rw /App.setCurrentView /App.clearUnreadEffect. by repeat case_match.
  - rw /App.setResume /App.autosaveEffect /=. by case_match.
  - rw /App.setSession /App.autosaveEffect /=. by case_match.
  - done.
Qed.

(** X5: the handlers of App only ever append to the assistant's
    messages: along any run, the messages of an earlier state are a
    prefix of those of a later one. *)
Theorem messages_append_only s s' :
  rtc step s s' → App.claireMessages s `prefix_of` App.claireMessages s'.
Proof.
  induction 1 as [|s1 s2 s3 Hstep _ IH]; [done|].
  etrans; [by apply step_messages_grow|done].
Qed.

Lemma messages_append_only_witness :
  App.claireMessages App.initial
  `prefix_of`
  App.claireMessages
    (App.handleUpdateJob_optimistic Sample.tracking Sample.t0
       (Job.with_status ACCEPTED (Job.with_id "41" Sample.acme)) Sample.tracking).
Proof.
  apply messages_append_only.
  eapply rtc_r; [apply tracking_reachable|apply step_update_optimistic].
Defined.

(** X6: once raised, the badge stays raised through every step that
    does not end in the chat view: nothing but the effect of entering
    the chat lowers it. *)
Theorem unread_stays_raised s s' :
  step s s' →
  App.unreadClaire s = true →
  App.currentView s' ≠ CLAIRE →
  App.unreadClaire s' = true.
Proof.
  intros Hstep Hraised Hview. destruct Hstep.
  - done.
  - revert Hview. rw /App.handleAddJob_settle. by destruct (App.insert_result r).
  - rw handleUpdateJob_optimistic_unread.
    destruct (App.find_job _ _); [|done]. by case_decide.
  - by destruct r.
  - done.
  - by destruct r.
  - revert Hview. rw /App.setCurrentView /App.clearUnreadEffect.
    destruct (decide (v = App.currentView s)); [done|].
    simpl. by destruct (decide (v = CLAIRE)).
  - revert Hview. rw /App.setResume /App.autosaveEffect /=. by case_match.
  - revert Hview. rw /App.setSession /App.autosaveEffect /=. by case_match.
  - done.
Qed.

Lemma unread_stays_raised_witness :
  let raised :=
    App.handleUpdateJob_optimistic Sample.tracking Sample.t0
      (Job.with_status REJECTED (Job.with_id "41" Sample.acme)) Sample.tracking in
  App.unreadClaire (App.setCurrentView RESUME raised) = true.
Proof.
  apply (unread_stays_raised _ _ (step_view RESUME _)); by vm_compute.
Defined.

Lemma step_keeps_single_timer s s' :
  step s s' → autosave_ok s →
  (length (App.timers s) ≤ 1)%nat → (length (App.timers s') ≤ 1)%nat.
Proof.
  intros Hstep Hok Hone. destruct Hstep.
  - done.
  - rw /App.handleAddJob_settle. by destruct (App.insert_result r).
  - rw /App.handleUpdateJob_optimistic /App.handleJobStatusChangeNotification.
    by repeat case_match.
  - by destruct r.
  - done.
  - by destruct r.
  - rw /App.setCurrentView /App.clearUnreadEffect. by repeat case_match.
  - destruct (setResume_spec now f s (proj1 Hok)) as (_ & _ & _ & -> & _).
    case_decide; simpl; lia.
  - apply (advance_keeps_autosave_ok now) in Hok as [Howned _].
    rw /App.setSession.
    match goal with
    | |- context [App.autosaveEffect now ?u] =>
        destruct (autosaveEffect_timers now u Howned) as (-> & _)
    end.
    case_decide; simpl; lia.
  - etrans; [apply (length_filter (λ t, ¬ (deadline t ≤ now)%N))|done].
Qed.

(** X7: in every reachable state at most one persist of the resume is
    pending. *)
Theorem at_most_one_pending_save s :
  reachable s → (length (App.timers s) ≤ 1)%nat.
Proof.
  intros Hs.
  cut (autosave_ok s ∧ (length (App.timers s) ≤ 1)%nat); [by intros [_ ?]|].
  revert s Hs. rw /reachable. apply rtc_ind_r.
  - split; [by apply reachable_autosave_ok, reachable_initial|simpl; lia].
  - intros s1 s2 _ Hstep [Hok Hone]. split.
    + by eapply step_keeps_autosave_ok.
    + by eapply step_keeps_single_timer.
Qed.

Lemma at_most_one_pending_save_witness :
  (length (App.timers (App.burst 1000 Sample.nameEdits Sample.signedIn).2) ≤ 1)%nat.
Proof.
  apply at_most_one_pending_save.
  repeat (eapply reachable_step; [|apply step_resume]).
  apply signedIn_reachable.
Defined.

End Monotone.

(** ** Loading from the store and writing back *)

Section Loading.

Import AppData.

Implicit Types (s : App.State) (job : Job.t) (row : ResumeRow).

Lemma setResume_keeps_jobs now f s : App.jobs (App.setResume now f s) = App.jobs s.
Proof. rw /App.setResume /App.autosaveEffect /=. by case_match. Qed.

(** X8: a row that holds the columns [handleAddJob] inserts for a job,
    under the identity the store gave it, is read by [fetchData] as that
    job with that identity: no column is lost, crossed or renamed apart;
    and the collection after a successful fetch is the mapped rows, in
    the order of the answer, whatever it held before. *)
Theorem fetchData_reads_back_inserted now session (l : list (string * Job.t))
    resumeQuery s :
  (∀ x job,
     mappedJob (mkJobRow x (insertColumns session job)) = Job.with_id x job)
  ∧ App.jobs
      (fetchData now
         (Fulfilled
            (mkResponse
               (Some ((λ p, mkJobRow p.1 (insertColumns session p.2)) <$> l)) None))
         resumeQuery s)
    = (λ p, Job.with_id p.1 p.2) <$> l.
Proof.
  split; [done|].
  rw /fetchData /=.
  assert (Hmap :
    mappedJob <$> ((λ p, mkJobRow p.1 (insertColumns session p.2)) <$> l)
    = (λ p, Job.with_id p.1 p.2) <$> l).
  { rw -list_fmap_compose. by apply list_fmap_ext. }
  destruct resumeQuery as [[[row|] err]|e]; rw ?setResume_keeps_jobs /=; exact Hmap.
Qed.

(** X9: what [saveResumeToSupabase] writes, [fetchData] reads back as
    the same resume; and a row whose lists are null is read as a resume
    with empty lists. *)
Theorem resume_round_trip session (r : Resume.t) row :
  fetchedResume (resumePayload session r) = r
  ∧ (experience row = None → Resume.experience (fetchedResume row) = [])
  ∧ (education row = None → Resume.education (fetchedResume row) = [])
  ∧ (projects row = None → Resume.projects (fetchedResume row) = []).
Proof.
  split_and!; [by destruct r|..]; by intros Hnull; rw /fetchedResume Hnull.
Qed.

(** X10: when the jobs query fails, by a rejected promise or by an error
    in its answer, [fetchData] logs the error once and leaves the
    collection, the resume and the pending persist as they were; the
    resume query is not made. *)
Theorem fetchData_failure_keeps_state now jobsQuery resumeQuery s :
  call_failed jobsQuery →
  let after := fetchData now jobsQuery resumeQuery s in
  App.jobs after = App.jobs s
  ∧ App.resume after = App.resume s
  ∧ App.timers after = App.timers s
  ∧ App.saved after = App.saved s
  ∧ ∃ e, App.console after = App.console s ++ [("Error fetching data:", e)].
Proof.
  intros Hfail. rw /fetchData.
  destruct jobsQuery as [resp|e]; [|by split_and!; [..|eexists]].
  destruct Hfail as [e He]. rw He. by split_and!; [..|eexists].
Qed.

Lemma fetchData_failure_keeps_state_witness :
  App.jobs (fetchData 5000 Sample.refused Sample.refused Sample.oneJob)
  = App.jobs Sample.oneJob.
Proof.
  apply (fetchData_failure_keeps_state 5000 Sample.refused Sample.refused Sample.oneJob).
  by eexists.
Defined.

(** After a mutation that the guard lets through, the persist that is
    scheduled runs once its delay has passed, with the resume of that
    mutation. *)
Lemma setResume_saved_later now later f s :
  owned s →
  is_Some (App.session s) →
  Resume.fullName (f (App.resume s)) ≠ "" →
  (now + 2000 ≤ later)%N →
  App.saved (App.advance later (App.setResume now f s))
  = App.saved (App.advance now s) ++ [f (App.resume s)].
Proof.
  intros Howned Hsession Hname Hlater.
  destruct (setResume_spec now f s Howned) as (_ & _ & Hsaved & Htimers & _).
  rw decide_True // in Htimers.
  destruct (advance_all_due later (App.setResume now f s)) as [-> _].
  - intros t. rw Htimers. by intros ->%list_elem_of_singleton.
  - rw Htimers /=. lia.
  - by rw Hsaved Htimers.
Qed.

(** X11: loading writes back. When a session exists and the store
    answers with a resume that has a name, [fetchData] sets that resume
    and thereby schedules a persist of it: 2000ms later the resume just
    loaded is saved again, unchanged. *)
Theorem fetched_resume_is_written_back now later rows row s :
  reachable s →
  is_Some (App.session s) →
  full_name row ≠ "" →
  (now + 2000 ≤ later)%N →
  let after :=
    fetchData now (Fulfilled (mkResponse (Some rows) None))
      (Fulfilled (mkResponse (Some row) None)) s in
  App.jobs after = mappedJob <$> rows
  ∧ App.resume after = fetchedResume row
  ∧ App.saved (App.advance later after)
    = App.saved (App.advance now s) ++ [fetchedResume row].
Proof.
  intros [Howned _]%reachable_autosave_ok Hsession Hname Hlater after.
  assert (Howned1 : owned (App.setJobs (λ _, mappedJob <$> rows) s)) by exact Howned.
  split_and!.
  - rw /after /fetchData /=. by rw setResume_keeps_jobs.
  - rw /after /fetchData /=.
    by destruct (setResume_spec now (λ _, fetchedResume row) _ Howned1) as (-> & _).
  - change after with
      (App.setResume now (λ _, fetchedResume row)
         (App.setJobs (λ _, mappedJob <$> rows) s)).
    by rw (setResume_saved_later now later).
Qed.

Lemma fetched_resume_is_written_back_witness :
  let row := resumePayload (Some "user-1") (Sample.setFullName "Ali" Resume.initial) in
  App.saved
    (App.advance 7000
       (fetchData 5000 (Fulfilled (mkResponse (Some []) None))
          (Fulfilled (mkResponse (Some row) None)) Sample.signedIn))
  = [Sample.setFullName "Ali" Resume.initial].
Proof.
  apply (fetched_resume_is_written_back 5000 7000 []
           (resumePayload (Some "user-1") (Sample.setFullName "Ali" Resume.initial))
           Sample.signedIn signedIn_reachable); [by eexists|done|by_evaluation].
Defined.

(** X12: an avatar attached to a resume that has a name, under a
    session, is saved with it: the attach changes no other field, and
    2000ms later one persistence call has been issued, carrying the
    resume with the new avatar. *)
Theorem attached_avatar_is_saved now later avatarUrl s :
  reachable s →
  is_Some (App.session s) →
  Resume.fullName (App.resume s) ≠ "" →
  (now + 2000 ≤ later)%N →
  let after := handleAttachAvatar now avatarUrl s in
  Resume.avatar (App.resume after) = Some avatarUrl
  ∧ Resume.fullName (App.resume after) = Resume.fullName (App.resume s)
  ∧ Resume.email (App.resume after) = Resume.email (App.resume s)
  ∧ Resume.phone (App.resume after) = Resume.phone (App.resume s)
  ∧ Resume.summary (App.resume after) = Resume.summary (App.resume s)
  ∧ Resume.skills (App.resume after) = Resume.skills (App.resume s)
  ∧ Resume.experience (App.resume after) = Resume.experience (App.resume s)
  ∧ Resume.education (App.resume after) = Resume.education (App.resume s)
  ∧ Resume.projects (App.resume after) = Resume.projects (App.resume s)
  ∧ App.saved (App.advance later after)
    = App.saved (App.advance now s) ++ [attachAvatar avatarUrl (App.resume s)].
Proof.
  intros [Howned _]%reachable_autosave_ok Hsession Hname Hlater after.
  destruct (setResume_spec now (attachAvatar avatarUrl) s Howned) as (Hresume & _).
  fold (handleAttachAvatar now avatarUrl s) in Hresume. fold after in Hresume.
  rw Hresume. split_and!; [done..|].
  by apply setResume_saved_later.
Qed.

Lemma attached_avatar_is_saved_witness :
  let named := App.setResume 1000 (Sample.setFullName "Ali") Sample.signedIn in
  Resume.avatar (App.resume (handleAttachAvatar 1500 "data:image/png;base64,AAAA" named))
  = Some "data:image/png;base64,AAAA".
Proof.
  apply (attached_avatar_is_saved 1500 3500 "data:image/png;base64,AAAA"
           (App.setResume 1000 (Sample.setFullName "Ali") Sample.signedIn)).
  - apply (reachable_step _ _ signedIn_reachable), step_resume.
  - by eexists.
  - done.
  - by_evaluation.
Defined.

End Loading.

(** ** The tracker: status changes, deletes, submissions *)

Section Tracker.

Import JobTracker.

Implicit Types (job j old sel : Job.t) (l : list Job.t) (x jobId : string)
  (jt : JobTracker.State) (app : App.State).

Lemma find_job_Some x l old :
  App.find_job x l = Some old → old ∈ l ∧ Job.id old = x.
Proof.
  rw /App.find_job. destruct (list_find _ l) as [[i j]|] eqn:Hfind; [|done].
  intros [= <-]. apply list_find_Some in Hfind as (Hi & Hid & _).
  split; [by eapply list_elem_of_lookup_2|done].
Qed.

Lemma find_job_None x l : App.find_job x l = None ↔ x ∉ ids l.
Proof.
  rw /App.find_job fmap_None list_find_None Forall_forall /ids list_elem_of_fmap.
  split.
  - intros Hall (j & -> & Hj). by apply (Hall j).
  - intros Hnot j Hj Hid. apply Hnot. by exists j.
Qed.

Lemma NoDup_ids_eq l j j' :
  NoDup (ids l) → j ∈ l → j' ∈ l → Job.id j = Job.id j' → j = j'.
Proof.
  induction l as [|k l IH]; [by intros _ ?%elem_of_nil|].
  rw /ids fmap_cons NoDup_cons. intros [Hk Hl] Hj Hj' Hid.
  apply elem_of_cons in Hj as [->|Hj]; apply elem_of_cons in Hj' as [->|Hj'].
  - done.
  - destruct Hk. rw Hid. by apply list_elem_of_fmap_2.
  - destruct Hk. rw -Hid. by apply list_elem_of_fmap_2.
  - by apply IH.
Qed.

(** The collection after a status change of a stored record. *)
Lemma handleStatusChange_jobs {A} now jobId st (r : Settled (PostgrestResponse A))
    jt app old :
  App.find_job jobId (App.jobs app) = Some old →
  App.jobs (handleStatusChange now jobId st r jt app).2
  = (λ j, if decide (Job.id j = jobId) then Job.with_status st old else j)
      <$> App.jobs app
  ∧ Job.with_status st old ∈ App.jobs (handleStatusChange now jobId st r jt app).2.
Proof.
  intros Hold. destruct (find_job_Some _ _ _ Hold) as [Hin Hid].
  assert (Hjobs : App.jobs (handleStatusChange now jobId st r jt app).2
                  = App.jobs (App.handleUpdateJob now (Job.with_status st old) r app)).
  { rw /handleStatusChange Hold. by repeat case_match. }
  rw Hjobs. split.
  - destruct (handleUpdateJob_no_rollback now (Job.with_status st old) r app)
      as [_ Hupd].
    simpl in Hupd. by rw Hid in Hupd.
  - apply handleUpdateJob_stored. rw /ids list_elem_of_fmap. by exists old.
Qed.

(** X13: a status change writes the record with the new status, and
    nothing else of it changed, over the stored one; the identities of
    the collection stay as they were; and the detail panel follows: it
    shows the changed record when it was showing that identity, and keeps
    what it showed otherwise. *)
Theorem handleStatusChange_sync {A} now jobId st (r : Settled (PostgrestResponse A))
    jt app old :
  App.find_job jobId (App.jobs app) = Some old →
  let updated := Job.with_status st old in
  let after := handleStatusChange now jobId st r jt app in
  Job.id updated = jobId
  ∧ updated ∈ App.jobs after.2
  ∧ (∀ j, j ∈ App.jobs after.2 → Job.id j = jobId → j = updated)
  ∧ ids (App.jobs after.2) = ids (App.jobs app)
  ∧ selectedJob after.1
    = (sel ← selectedJob jt;
       Some (if decide (Job.id sel = jobId) then updated else sel)).
Proof.
  intros Hold updated after.
  destruct (find_job_Some _ _ _ Hold) as [Hin Hid].
  assert (Hafter : after = (match selectedJob jt with
                            | Some sel =>
                                if decide (Job.id sel = jobId)
                                then setSelectedJob (Some updated) jt else jt
                            | None => jt
                            end, App.handleUpdateJob now updated r app)).
  { rw /after /handleStatusChange Hold. by repeat case_match. }
  rw Hafter /=. split_and!.
  - done.
  - apply handleUpdateJob_stored. rw /ids list_elem_of_fmap. by exists old.
  - intros j Hj Hj'. eapply handleUpdateJob_writes; [done|]. by rw Hj'.
  - destruct (handleUpdateJob_no_rollback now updated r app) as [_ ->].
    apply replace_by_id_ids.
  - destruct (selectedJob jt) as [sel|] eqn:Hsel; [|done]. simpl.
    case_decide; [done|]. by rw Hsel.
Qed.

Lemma handleStatusChange_sync_witness :
  let opened := setSelectedJob (Some (Job.with_id "41" Sample.acme))
                  (initial applications) in
  selectedJob (handleStatusChange Sample.t0 "41" INTERVIEW Sample.accepted
                 opened Sample.tracking).1
  = Some (Job.with_status INTERVIEW (Job.with_id "41" Sample.acme)).
Proof.
  apply (handleStatusChange_sync Sample.t0 "41" INTERVIEW Sample.accepted
           (setSelectedJob (Some (Job.with_id "41" Sample.acme)) (initial applications))
           Sample.tracking (Job.with_id "41" Sample.acme) eq_refl).
Defined.

(** A status change for an identity the store does not hold does
    nothing at all. *)
Lemma handleStatusChange_unknown {A} now jobId st (r : Settled (PostgrestResponse A))
    jt app :
  jobId ∉ ids (App.jobs app) →
  handleStatusChange now jobId st r jt app = (jt, app).
Proof. intros Hnone%find_job_None. by rw /handleStatusChange Hnone. Qed.

Lemma ids_filter_fmap_stable (P : Job.t → Prop) `{!∀ j, Decision (P j)}
    (f : Job.t → Job.t) l :
  (∀ j, j ∈ l → (P (f j) ↔ P j) ∧ Job.id (f j) = Job.id j) →
  ids (filter P (f <$> l)) = ids (filter P l).
Proof.
  induction l as [|j l IH]; intros Hstable; [done|].
  destruct (Hstable j ltac:(by left)) as [HP Hid].
  assert (Hrest : ids (filter P (f <$> l)) = ids (filter P l)).
  { apply IH. intros k Hk. apply Hstable. by right. }
  rw fmap_cons !filter_cons.
  destruct (decide (P (f j))), (decide (P j)); [|tauto|tauto|done].
  by rw /ids !fmap_cons Hid -/(ids _) -/(ids _) Hrest.
Qed.

(** X14: while identities are distinct, changing the status of a record
    that has an origin moves nothing between the two lists: each view
    shows the same identities, in the same order, as before, whatever
    the new status is. *)
Theorem status_change_keeps_lists {A} now jobId st (r : Settled (PostgrestResponse A))
    jt app old o :
  NoDup (ids (App.jobs app)) →
  App.find_job jobId (App.jobs app) = Some old →
  Job.origin old = Some o →
  ∀ mode,
    ids (displayedJobs mode (App.jobs (handleStatusChange now jobId st r jt app).2))
    = ids (displayedJobs mode (App.jobs app)).
Proof.
  intros Hnodup Hold Horigin mode.
  destruct (find_job_Some _ _ _ Hold) as [Hin Hid].
  destruct (handleStatusChange_jobs now jobId st r jt app old Hold) as [Hjobs _].
  rw Hjobs. apply (ids_filter_fmap_stable (λ job, keepsJob mode job)).
  intros j Hj. case_decide as Hsame; [|done].
  assert (j = old) as -> by (apply (NoDup_ids_eq (App.jobs app)); congruence).
  split; [|done].
  by rw /keepsJob /originOrLegacy /= Horigin.
Qed.

Lemma status_change_keeps_lists_witness :
  ids (displayedJobs applications
         (App.jobs (handleStatusChange Sample.t0 "41" OFFER Sample.accepted
                      (initial applications) Sample.tracking).2))
  = ids (displayedJobs applications (App.jobs Sample.tracking)).
Proof.
  apply (status_change_keeps_lists Sample.t0 "41" OFFER Sample.accepted
           (initial applications) Sample.tracking (Job.with_id "41" Sample.acme)
           application); [by_evaluation|done|done].
Defined.

(** X15: a record without origin goes by its status: after a status
    change it is shown among the offers exactly when the new status is
    Offer, and among the applications otherwise. *)
Theorem legacy_record_follows_status {A} now jobId st
    (r : Settled (PostgrestResponse A)) jt app old :
  App.find_job jobId (App.jobs app) = Some old →
  Job.origin old = None →
  let updated := Job.with_status st old in
  let after := App.jobs (handleStatusChange now jobId st r jt app).2 in
  (updated ∈ displayedJobs offers after ↔ st = OFFER)
  ∧ (updated ∈ displayedJobs applications after ↔ st ≠ OFFER).
Proof.
  intros Hold Horigin updated after.
  destruct (handleStatusChange_jobs now jobId st r jt app old Hold) as [_ Hin].
  fold updated after in Hin.
  rw /displayedJobs.
  rw (list_elem_of_filter (λ job, keepsJob offers job)).
  rw (list_elem_of_filter (λ job, keepsJob applications job)).
  rw /keepsJob /originOrLegacy /= Horigin.
  split; case_decide; split; try done; try tauto; by intros [].
Qed.

Lemma legacy_record_follows_status_witness :
  let hooli :=
    Job.mk "4" "Hooli" "Tester" "Remote" "Negotiable" OFFER "2024-05-03"
           "" "Dear Hiring Manager," None "" None in
  let store := App.setJobs (λ _, Sample.mixed) App.initial in
  Job.with_status REJECTED hooli
  ∈ displayedJobs applications
      (App.jobs (handleStatusChange Sample.t0 "4" REJECTED Sample.accepted
                   (initial offers) store).2).
Proof.
  apply (legacy_record_follows_status Sample.t0 "4" REJECTED Sample.accepted
           (initial offers) (App.setJobs (λ _, Sample.mixed) App.initial)
           (Job.mk "4" "Hooli" "Tester" "Remote" "Negotiable" OFFER "2024-05-03"
              "" "Dear Hiring Manager," None "" None) eq_refl eq_refl).
  done.
Defined.

End Tracker.

(** ** The tracker: deleting and creating *)

Section TrackerCreateDelete.

Import JobTracker.

Implicit Types (job j sel : Job.t) (l : list Job.t) (x jobId : string)
  (jt : JobTracker.State) (app : App.State).

(** X16: deleting from the tracker closes the detail panel exactly when
    it shows the deleted identity: afterwards the panel never shows a
    record of that identity, the collection holds none, and a record the
    panel still shows is still stored if it was. *)
Theorem tracker_delete_closes_panel {A} jobId (r : Settled (PostgrestResponse A)) jt app :
  let after := handleDeleteJob jobId r jt app in
  (jobId ∉ ids (App.jobs after.2))
  ∧ selectedJob after.1
    = (sel ← selectedJob jt; if decide (Job.id sel = jobId) then None else Some sel)
  ∧ (∀ sel, selectedJob after.1 = Some sel →
            Job.id sel ≠ jobId
            ∧ selectedJob jt = Some sel
            ∧ (sel ∈ App.jobs app → sel ∈ App.jobs after.2)).
Proof.
  intros after.
  assert (Hjobs : App.jobs after.2 = filter (λ j, Job.id j ≠ jobId) (App.jobs app)).
  { rw /after /handleDeleteJob -(handleDeleteJob_no_rollback jobId r app).
    by repeat case_match. }
  assert (Hsel : selectedJob after.1
                 = (sel ← selectedJob jt;
                    if decide (Job.id sel = jobId) then None else Some sel)).
  { rw /after /handleDeleteJob.
    destruct (selectedJob jt) as [sel|] eqn:Hsel; [|done]. simpl.
    by case_decide. }
  split_and!; [|done|].
  - rw Hjobs. apply filter_other_ids_absent.
  - intros sel. rw Hsel Hjobs.
    destruct (selectedJob jt) as [sel'|]; [|done]. simpl.
    case_decide; [done|]. intros [= ->]. split_and!; [done..|].
    intros Hin. by apply filter_other_ids_spec.
Qed.

Lemma jobToAdd_origin mode today company role form response :
  Job.origin (jobToAdd mode today company role form response)
  = Some (if isOffersMode mode then offer else application).
Proof. done. Qed.

Lemma keepsJob_by_origin mode mode' job :
  Job.origin job = Some (if isOffersMode mode then offer else application) →
  keepsJob mode' job = bool_decide (mode' = mode).
Proof.
  intros Horigin. rw /keepsJob /originOrLegacy Horigin.
  by destruct mode, mode'.
Qed.

(** X17: a submission with a blank company or role does nothing; any
    other submission closes and resets the form and hands one record to
    the store, which from then on is shown, first, in the view it was
    created from and never in the other: with its temporary identity
    while the insert is pending, with the identity of the store once the
    insert has succeeded, and not at all once it has failed. *)
Theorem created_job_lands_in_its_view mode today now response r jt app :
  Date_now_toString now ∉ ids (App.jobs app) →
  let company := default "" (company (newJob jt)) in
  let role := default "" (role (newJob jt)) in
  let job := jobToAdd mode today company role (newJob jt) response in
  let pending := App.jobs (App.handleAddJob_optimistic now job app) in
  let after := App.jobs (App.handleAddJob now job r app) in
  (opt_truthy (JobTracker.company (newJob jt)) = false
   ∨ opt_truthy (JobTracker.role (newJob jt)) = false →
   handleCreateJob mode today now response r jt app = Returned (jt, app))
  ∧ (opt_truthy (JobTracker.company (newJob jt)) = true →
     opt_truthy (JobTracker.role (newJob jt)) = true →
     handleCreateJob mode today now response r jt app
     = Returned (mkState false (selectedJob jt) (resetForm mode) false (alerts jt),
                 App.handleAddJob now job r app))
  ∧ displayedJobs mode pending
    = Job.with_id (Date_now_toString now) job :: displayedJobs mode (App.jobs app)
  ∧ displayedJobs (otherMode mode) pending = displayedJobs (otherMode mode) (App.jobs app)
  ∧ displayedJobs mode after
    = match App.insert_result r with
      | Returned x => Job.with_id x job :: displayedJobs mode (App.jobs app)
      | Thrown _ => displayedJobs mode (App.jobs app)
      end
  ∧ displayedJobs (otherMode mode) after = displayedJobs (otherMode mode) (App.jobs app).
Proof.
  intros Hfresh company role job pending after.
  assert (Hkeep : ∀ x mode', keepsJob mode' (Job.with_id x job) = bool_decide (mode' = mode)).
  { intros x mode'. by apply keepsJob_by_origin. }
  assert (Hafter : after = match App.insert_result r with
                           | Returned x => Job.with_id x job :: App.jobs app
                           | Thrown _ => App.jobs app
                           end).
  { rw /after. destruct (App.insert_result r) as [x|e] eqn:Hr.
    - by apply handleAddJob_success_jobs.
    - rw /App.handleAddJob handleAddJob_settle_failure; [|by eexists].
      rw /= filter_cons_False; [|intros Hne; by apply Hne].
      by apply filter_other_ids_fresh. }
  split_and!.
  - rw /handleCreateJob. by intros [-> | ->]; rw /= ?orb_true_r.
  - intros Hc Hr. by rw /handleCreateJob Hc Hr.
  - rw /pending /displayedJobs /= filter_cons_True //.
    rw Hkeep. by apply bool_decide_pack.
  - rw /pending /displayedJobs /= filter_cons_False //.
    rw Hkeep. intros ?%bool_decide_unpack. by destruct mode.
  - rw Hafter. destruct (App.insert_result r); [|done].
    rw /displayedJobs filter_cons_True //. rw Hkeep. by apply bool_decide_pack.
  - rw Hafter. destruct (App.insert_result r); [|done].
    rw /displayedJobs filter_cons_False //.
    rw Hkeep. intros ?%bool_decide_unpack. by destruct mode.
Qed.

Lemma created_job_lands_in_its_view_witness :
  let job :=
    jobToAdd offers "2024-05-01" "Acme" "Engineer"
      (newJob (Sample.filledForm offers)) (Fulfilled (Some "Guide")) in
  displayedJobs offers
    (App.jobs (App.handleAddJob Sample.t0 job (Sample.inserted "42") Sample.tracking))
  = Job.with_id "42" job :: displayedJobs offers (App.jobs Sample.tracking).
Proof.
  apply (created_job_lands_in_its_view offers "2024-05-01" Sample.t0
           (Fulfilled (Some "Guide")) (Sample.inserted "42")
           (Sample.filledForm offers) Sample.tracking).
  by_evaluation.
Defined.

End TrackerCreateDelete.

(** ** The printed page *)

Section Print.

Import JobTracker JobTrackerPrint.

Implicit Types (s t pre post : string) (c : ascii) (job : Job.t)
  (jt : JobTracker.State).

Lemma append_cons c s t : String c s +:+ t = String c (s +:+ t).
Proof. done. Qed.

Lemma append_nil t : "" +:+ t = t.
Proof. done. Qed.

Lemma stripBold_cons2 c c' s :
  stripBold (String c (String c' s))
  = if decide (c = star ∧ c' = star) then stripBold s
    else String c (stripBold (String c' s)).
Proof. done. Qed.

Lemma hasBoldMarker_cons2 c c' s :
  hasBoldMarker (String c (String c' s))
  = bool_decide (c = star ∧ c' = star) || hasBoldMarker (String c' s).
Proof. done. Qed.

(** What is left starts with a star only if the text did. *)
Lemma stripBold_head c s c0 t :
  stripBold (String c s) = String c0 t → c0 = star → c = star.
Proof.
  destruct s as [|c' s]; [by intros [= -> _]|].
  rw stripBold_cons2. case_decide as Hpair; [by destruct Hpair|].
  by intros [= -> _].
Qed.

Lemma stripBold_no_marker_upto n :
  ∀ s, (String.length s ≤ n)%nat →
       hasBoldMarker (stripBold s) = false
       ∧ (String.length (stripBold s) ≤ String.length s)%nat.
Proof.
  induction n as [|n IH]; intros s Hn.
  { destruct s; [done|simpl in Hn; lia]. }
  destruct s as [|c [|c' s]]; [done|done|].
  rw stripBold_cons2. simpl in Hn.
  case_decide as Hpair.
  - destruct (IH s) as [Hno Hlen]; [lia|]. split; [done|]. simpl. lia.
  - destruct (IH (String c' s)) as [Hno Hlen]; [simpl; lia|].
    split; [|simpl in *; lia].
    destruct (stripBold (String c' s)) as [|c0 t] eqn:Hrest; [done|].
    rw hasBoldMarker_cons2 Hno orb_false_r. apply bool_decide_eq_false.
    intros [Hc Hc0]. apply Hpair. split; [done|].
    by apply (stripBold_head c' s c0 t).
Qed.

Lemma contains_marker_spec s : contains "**" s ↔ hasBoldMarker s = true.
Proof.
  split.
  - intros (pre & post & ->). induction pre as [|c pre IH].
    + rw append_nil !append_cons append_nil hasBoldMarker_cons2.
      by rw bool_decide_true.
    + rw append_cons. destruct pre as [|c' pre].
      * rw append_nil !append_cons hasBoldMarker_cons2.
        rw append_nil !append_cons in IH. by rw IH orb_true_r.
      * rw append_cons hasBoldMarker_cons2.
        rw append_cons in IH. by rw IH orb_true_r.
  - induction s as [|c s IH]; [done|].
    destruct s as [|c' s]; [done|].
    rw hasBoldMarker_cons2. intros [Hpair|Hrest]%orb_true_iff.
    + apply bool_decide_eq_true in Hpair as [-> ->]. by exists "", s.
    + destruct (IH Hrest) as (pre & post & Heq).
      exists (String c pre), post. by rw append_cons -Heq.
Qed.

Lemma stripBold_without_marker s : hasBoldMarker s = false → stripBold s = s.
Proof.
  induction s as [|c s IH]; [done|].
  destruct s as [|c' s]; [done|].
  rw hasBoldMarker_cons2 stripBold_cons2.
  intros [Hpair Hrest]%orb_false_iff.
  apply bool_decide_eq_false in Hpair. rw decide_False //.
  by rw IH.
Qed.

Lemma stripBold_clean s : ¬ contains "**" (stripBold s).
Proof.
  destruct (stripBold_no_marker_upto (String.length s) s) as [Hno _]; [done|].
  rw contains_marker_spec. by rw Hno.
Qed.

(** X18: removing the bold markers leaves no pair of stars behind,
    whatever the text, leaves a text without such a pair as it is, never
    makes the text longer, and removes nothing more when repeated. *)
Theorem stripBold_removes_markers s :
  ¬ contains "**" (stripBold s)
  ∧ (¬ contains "**" s → stripBold s = s)
  ∧ stripBold (stripBold s) = stripBold s
  ∧ (String.length (stripBold s) ≤ String.length s)%nat.
Proof.
  destruct (stripBold_no_marker_upto (String.length s) s) as [Hno Hlen]; [done|].
  split_and!; [apply stripBold_clean| |by apply stripBold_without_marker|done].
  intros Hclean. apply stripBold_without_marker.
  rw contains_marker_spec in Hclean. by destruct (hasBoldMarker s).
Qed.

Example stripBold_example :
  stripBold "**Dear** a***b****c*" = "Dear a*bc*".
Proof. by vm_compute. Qed.

Lemma or_else_empty s : or_else s "" = s.
Proof.
  rw /or_else /truthy. by case_bool_decide as Hs.
Qed.

Lemma opt_or_else_empty (o : option string) : opt_or_else o "" = default "" o.
Proof. destruct o; [apply or_else_empty|done]. Qed.

(** X19: the page that is printed carries no bold markers. Its content
    is what the detail panel shows when the record counts as an offer or
    has no interview guide; for any other record that has an interview
    guide the page prints the guide although the panel shows the cover
    letter. Without a selection, or when no window opens, nothing is
    printed. *)
Theorem printed_page_content jt job :
  selectedJob jt = Some job →
  handleDownloadPDF false jt = None
  ∧ ∃ page,
      handleDownloadPDF true jt = Some page
      ∧ ¬ contains "**" (content page)
      ∧ (isJobOfferType job = true ∨ opt_truthy (Job.interviewGuide job) = false →
         content page = stripBold (default "" (displayContent jt)))
      ∧ (isJobOfferType job = false → opt_truthy (Job.interviewGuide job) = true →
         content page = stripBold (default "" (Job.interviewGuide job))
         ∧ displayContent jt = Some (Job.coverLetter job)).
Proof.
  intros Hsel. rw /handleDownloadPDF /displayContent /activeContent Hsel /=.
  split; [done|]. eexists. split; [done|]. simpl.
  rw opt_or_else_empty or_else_empty. split_and!.
  - apply stripBold_clean.
  - destruct (isJobOfferType job) eqn:Htype; simpl; [done|].
    intros [|Hguide]; [done|]. by rw Hguide.
  - intros -> Hguide. by rw Hguide.
Qed.

Lemma printed_page_content_witness :
  handleDownloadPDF false Sample.promotedOpen = None.
Proof. apply (printed_page_content Sample.promotedOpen Sample.promoted eq_refl). Defined.

Lemma handleDownloadPDF_nothing_selected jt popup :
  selectedJob jt = None → handleDownloadPDF popup jt = None.
Proof. intros Hnone. by rw /handleDownloadPDF Hnone. Qed.

End Print.

(** ** The avatar service: reading a data URL *)

Section Avatar.

Import AvatarService.

Implicit Types (s a b m d : string) (c sep : ascii).

Lemma includes_app c a b : includes c (a +:+ b) = includes c a || includes c b.
Proof.
  induction a as [|c' a IH]; [done|].
  rw append_cons /= IH. by rw orb_assoc.
Qed.

Lemma split_without sep a : includes sep a = false → split sep a = [a].
Proof.
  induction a as [|c a IH]; [done|].
  rw /=. intros [Hc Ha]%orb_false_iff. apply bool_decide_eq_false in Hc.
  rw decide_False // IH //.
Qed.

Lemma split_at_first sep a b :
  includes sep a = false → split sep (a +:+ String sep b) = a :: split sep b.
Proof.
  induction a as [|c a IH].
  - intros _. by rw append_nil /= decide_True.
  - rw append_cons /=. intros [Hc Ha]%orb_false_iff.
    apply bool_decide_eq_false in Hc. rw decide_False // IH //.
Qed.

(** X20: for a data URL [data:<mime>;base64,<payload>], whose mime type
    holds no comma, semicolon or colon and whose payload holds no comma,
    the request carries exactly that mime type, and that payload; when
    the payload is empty the whole URL is sent in its place. *)
Theorem generateAvatar_reads_data_url m d :
  includes ","%char m = false →
  includes ";"%char m = false →
  includes ":"%char m = false →
  includes ","%char d = false →
  let imageBase64 := "data:" +:+ m +:+ ";base64," +:+ d in
  mimeType imageBase64 = Some m
  ∧ base64Data imageBase64 = or_else d imageBase64.
Proof.
  intros Hcomma Hsemi Hcolon Hd imageBase64.
  assert (H1 : imageBase64 = ("data:" +:+ m +:+ ";base64") +:+ String ","%char d).
  { by rw /imageBase64 !append_assoc. }
  assert (H2 : imageBase64 = ("data:" +:+ m) +:+ String ";"%char ("base64," +:+ d)).
  { by rw /imageBase64 !append_assoc. }
  assert (Hsemi' : includes ";"%char ("data:" +:+ m) = false).
  { by rw includes_app Hsemi. }
  assert (Hcomma' : includes ","%char ("data:" +:+ m +:+ ";base64") = false).
  { by rw !includes_app Hcomma. }
  clearbody imageBase64. split.
  - rw /mimeType H2 includes_app /= orb_true_r split_at_first //=.
    by rw append_nil split_without.
  - rw /base64Data {1}H1 split_at_first // split_without //.
Qed.

Lemma generateAvatar_reads_data_url_witness :
  mimeType "data:image/jpeg;base64,AAAA" = Some "image/jpeg"
  ∧ base64Data "data:image/jpeg;base64,AAAA" = "AAAA".
Proof.
  apply (generateAvatar_reads_data_url "image/jpeg" "AAAA"); done.
Defined.

(** X21: an input that is not a data URL is sent as it is: without a
    comma the payload is the input itself, and without a semicolon the
    mime type is taken to be [image/png]. *)
Theorem generateAvatar_reads_raw_input s :
  includes ","%char s = false →
  base64Data s = s
  ∧ (includes ";"%char s = false → mimeType s = Some "image/png").
Proof.
  intros Hcomma. split.
  - by rw /base64Data split_without.
  - intros Hsemi. by rw /mimeType Hsemi.
Qed.

Lemma generateAvatar_reads_raw_input_witness : base64Data "AAAA" = "AAAA".
Proof. by apply (generateAvatar_reads_raw_input "AAAA"). Defined.

End Avatar.

(** ** The dashboard *)

Section DashboardCounts.

Import Dashboard.

Implicit Types (jobs : list Job.t) (j : Job.t).

Lemma withStatus_cons st j jobs :
  withStatus st (j :: jobs)
  = (if decide (Job.status j = st) then 1 else 0) + withStatus st jobs.
Proof. rw /withStatus filter_cons. by case_decide. Qed.

Lemma status_counts_total jobs :
  withStatus APPLIED jobs + interviewing jobs + offers jobs + accepted jobs
    + rejected jobs + withStatus DRAFT jobs
  = length jobs.
Proof.
  rw /interviewing /offers /accepted /rejected.
  induction jobs as [|j jobs IH]; [done|].
  rw !withStatus_cons /=. destruct (Job.status j); simpl; lia.
Qed.

(** X22: every record is counted under exactly one status: the five
    bars of the status chart and the drafts, which the chart leaves out,
    add up to the size of the collection; and the list of accepted jobs
    has the size the counter shows. *)
Theorem status_counts_cover jobs :
  withStatus APPLIED jobs + interviewing jobs + offers jobs + accepted jobs
    + rejected jobs + withStatus DRAFT jobs
  = length jobs
  ∧ sum_list (snd <$> statusData jobs) + withStatus DRAFT jobs = length jobs
  ∧ length (acceptedJobs jobs) = accepted jobs.
Proof.
  pose proof (status_counts_total jobs) as Hall.
  split_and!; [done| |done].
  rw /statusData /=. lia.
Qed.

(** X23: the scale of the status chart is never zero and never below a
    bar: it is at least one, at least every count shown, and at most the
    size of the collection when that is not zero. *)
Theorem maxStatusCount_bounds jobs :
  (1 ≤ maxStatusCount jobs)%nat
  ∧ (∀ item, item ∈ statusData jobs → (item.2 ≤ maxStatusCount jobs)%nat)
  ∧ (maxStatusCount jobs ≤ Nat.max 1 (length jobs))%nat.
Proof.
  split_and!.
  - apply max_list_elem_of_le, elem_of_app. right. by left.
  - intros item Hitem. apply max_list_elem_of_le, elem_of_app. left.
    by apply list_elem_of_fmap_2.
  - pose proof (status_counts_total jobs) as Hall.
    rw /maxStatusCount /statusData /=. lia.
Qed.

Lemma length_filter_cons {A} (P : A → Prop) `{!∀ a, Decision (P a)} (a : A) l :
  length (filter P (a :: l)) = (if decide (P a) then 1 else 0) + length (filter P l).
Proof. rw filter_cons. by case_decide. Qed.

Lemma applied_or_legacy_accepted j :
  (if decide (Is_true (JobTracker.keepsJob JobTracker.applications j)) then 1 else 0)
  = (if decide (Is_true (countsAsApplied j)) then 1 else 0)
    + (if decide (Job.origin j = None ∧ Job.status j = ACCEPTED) then 1 else 0).
Proof.
  destruct j as [? ? ? ? ? st ? ? ? ? ? o].
  by destruct o as [[|]|], st.
Qed.

(** X24: the dashboard and the tracker count applications by
    different rules for records without origin: an accepted one is listed
    by the tracker among the applications but left out of Total Applied.
    The applications list is as long as Total Applied plus the number of
    such records, and never shorter than Total Applied. *)
Theorem totalApplied_and_applications_list jobs :
  length (JobTracker.displayedJobs JobTracker.applications jobs)
  = totalApplied jobs
    + length (filter (λ j, Job.origin j = None ∧ Job.status j = ACCEPTED) jobs)
  ∧ (totalApplied jobs
     ≤ length (JobTracker.displayedJobs JobTracker.applications jobs))%nat.
Proof.
  assert (Heq : length (JobTracker.displayedJobs JobTracker.applications jobs)
                = totalApplied jobs
                  + length (filter (λ j, Job.origin j = None ∧ Job.status j = ACCEPTED)
                              jobs)).
  { rw /JobTracker.displayedJobs /totalApplied.
    induction jobs as [|j jobs IH]; [done|].
    rw (length_filter_cons (λ j, JobTracker.keepsJob JobTracker.applications j)).
    rw (length_filter_cons (λ j, countsAsApplied j)).
    rw (length_filter_cons (λ j, Job.origin j = None ∧ Job.status j = ACCEPTED)).
    rw applied_or_legacy_accepted IH. lia. }
  split; [done|lia].
Qed.

End DashboardCounts.

(** ** The activity chart *)

Section Activity.

Import Dashboard.

Implicit Types (jobs : list Job.t) (j : Job.t) (d : string) (m : gmap string nat).

Lemma bump_lookup d' d m :
  default 0 (bump d' m !! d)
  = default 0 (m !! d) + (if decide (d' = d) then 1 else 0).
Proof.
  rw /bump lookup_insert. case_decide; [by subst|simpl; lia].
Qed.

Lemma tally_snoc jobs j : tally (jobs ++ [j]) = tallyJob (tally jobs) j.
Proof. by rw /tally foldl_app. Qed.

(** What the two tables hold for a date once the loop over the records
    is done. *)
Lemma tally_counts jobs d :
  default 0 ((tally jobs).1 !! d)
  = length (filter (λ j, Job.dateApplied j = d ∧ d ≠ "" ∧ isApp j) jobs)
  ∧ default 0 ((tally jobs).2 !! d)
    = length (filter (λ j, Job.dateApplied j = d ∧ d ≠ "" ∧ isOfferish j) jobs).
Proof.
  induction jobs as [|j jobs [IH1 IH2]] using rev_ind; [done|].
  rw tally_snoc !filter_app !length_app -IH1 -IH2 /tallyJob /truthy.
  rw !filter_cons !filter_nil.
  case_bool_decide as Hdate; simpl.
  - destruct (isApp j), (isOfferish j); simpl; rw ?bump_lookup;
      repeat destruct (decide _); simpl;
      first [lia | exfalso; intuition congruence].
  - repeat destruct (decide _); simpl;
      first [lia | exfalso; intuition congruence].
Qed.

(** X25: the activity chart has one point per day of its window, the
    oldest day first and today last; the point of a day counts the
    records dated that day, as applications when they have the origin
    application or no origin and a status other than Offer, as offers
    when their status is Offer or Accepted; a record with an empty date,
    or dated outside the window, is counted by no point. *)
Theorem activityData_counts timeRange calendar jobs :
  activityData timeRange calendar jobs
  = (λ i,
       let day := calendar i in
       mkPoint
         (if decide (timeRange ≠ range_7d) then monthDay day else weekday day)
         (length (filter (λ j, Job.dateApplied j = dateString day
                               ∧ dateString day ≠ "" ∧ isApp j) jobs))
         (length (filter (λ j, Job.dateApplied j = dateString day
                               ∧ dateString day ≠ "" ∧ isOfferish j) jobs))
         (dateString day))
    <$> reverse (seq 0 (daysToLookBack timeRange))
  ∧ length (activityData timeRange calendar jobs) = daysToLookBack timeRange
  ∧ fullDate <$> last (activityData timeRange calendar jobs)
    = Some (dateString (calendar 0)).
Proof.
  split_and!.
  - rw /activityData. apply list_fmap_ext. intros _ i _ =>/=.
    by destruct (tally_counts jobs (dateString (calendar i))) as [-> ->].
  - by rw /activityData length_fmap length_reverse length_seq.
  - rw /activityData fmap_last last_reverse.
    by destruct timeRange.
Qed.

Example activityData_mixed :
  (λ p, (apps p, offersThatDay p))
    <$> activityData range_7d
          (λ i, mkDay "Wed" "May 1"
                  (if decide (i = 0) then "2024-05-03"
                   else if decide (i = 2) then "2024-05-01" else "2024-04-30"))
          Sample.mixed
  = [(0, 0); (0, 0); (0, 0); (0, 0); (2, 1); (0, 0); (0, 1)].
Proof. by vm_compute. Qed.

End Activity.

(** ** The resume editor *)

Section Editor.

Import ResumeBuilder.

Implicit Types (prev r : Resume.t) (x field value : string) (section : Section).

Lemma filter_ne_fresh {A} (f : A → string) x (l : list A) :
  x ∉ f <$> l → filter (λ a, f a ≠ x) l = l.
Proof.
  induction l as [|a l IH]; intros Hfresh; [done|].
  rw fmap_cons not_elem_of_cons in Hfresh. destruct Hfresh as [Hne Hfresh].
  rw filter_cons_True; [|congruence]. by rw IH.
Qed.

Lemma filter_ne_snoc {A} (f : A → string) x (l : list A) (a : A) :
  f a = x → x ∉ f <$> l → filter (λ a, f a ≠ x) (l ++ [a]) = l.
Proof.
  intros Ha Hfresh. rw filter_app filter_ne_fresh //.
  rw filter_cons_False; [|intros Hne; by apply Hne]. by rw filter_nil app_nil_r.
Qed.

(** X26: adding an entry to a list of the resume and then removing it
    by its identity gives back the resume as it was, when no entry of
    that list already carried the identity read from the clock; the
    added entry comes last and the other lists are not touched. *)
Theorem removeItem_undoes_addItem section now prev :
  Date_now_toString now ∉ sectionIds section prev →
  removeItem section (Date_now_toString now) (addItem section now prev) = prev
  ∧ sectionIds section (addItem section now prev)
    = sectionIds section prev ++ [Date_now_toString now]
  ∧ ∀ other, other ≠ section →
      sectionIds other (addItem section now prev) = sectionIds other prev.
Proof.
  intros Hfresh. destruct prev as [? ? ? ? ? ex ed pr ?]. split_and!.
  - destruct section; rw /removeItem /addItem /withExperience /withEducation
      /withProjects /=; f_equal; by apply filter_ne_snoc.
  - destruct section; by rw /sectionIds /= fmap_app.
  - intros other Hother. by destruct section, other.
Qed.

Lemma removeItem_undoes_addItem_witness :
  removeItem education "1700000000000"
    (addItem education Sample.t0 (Sample.setFullName "Ali" Resume.initial))
  = Sample.setFullName "Ali" Resume.initial.
Proof.
  apply (removeItem_undoes_addItem education Sample.t0
           (Sample.setFullName "Ali" Resume.initial)).
  by_evaluation.
Defined.

Lemma fmap_if_fresh {A} (f : A → string) (g : A → A) x (l : list A) :
  x ∉ f <$> l → (λ a, if decide (f a = x) then g a else a) <$> l = l.
Proof.
  induction l as [|a l IH]; intros Hfresh; [done|].
  rw fmap_cons not_elem_of_cons in Hfresh. destruct Hfresh as [Hne Hfresh].
  rw fmap_cons IH // decide_False //.
Qed.

(** X27: editing a field of an entry other than its identity keeps the
    identities of all three lists, in order, and the name of the resume;
    and for an identity that no entry of the list carries it changes
    nothing. *)
Theorem updateItem_keeps_entries section x field value prev :
  field ≠ "id" →
  (∀ other, sectionIds other (updateItem section x field value prev)
            = sectionIds other prev)
  ∧ Resume.fullName (updateItem section x field value prev) = Resume.fullName prev
  ∧ (x ∉ sectionIds section prev → updateItem section x field value prev = prev).
Proof.
  intros Hfield. destruct prev as [? ? ? ? ? ex ed pr ?]. split_and!.
  - intros other.
    destruct section, other; try done;
      rw /sectionIds /updateItem /= -list_fmap_compose;
      apply list_fmap_ext; intros _ item _ =>/=;
      case_decide; rw /= ?decide_False //.
  - by destruct section.
  - intros Hfresh.
    destruct section; rw /updateItem /withExperience /withEducation /withProjects /=;
      f_equal; by apply fmap_if_fresh.
Qed.

Lemma updateItem_keeps_entries_witness :
  sectionIds experience
    (updateItem experience "1700000000000" "title" "Engineer"
       (addItem experience Sample.t0 Resume.initial))
  = ["1700000000000"].
Proof.
  by apply (updateItem_keeps_entries experience "1700000000000" "title" "Engineer"
              (addItem experience Sample.t0 Resume.initial)).
Defined.

End Editor.

(** ** Uploading a resume *)

Section Upload.

Import ResumeBuilder.

Implicit Types (prev : Resume.t).

Lemma pretty_N_char_digit (y : N) :
  bool_decide (48 ≤ nat_of_ascii (pretty_N_char y) ≤ 57)%nat = true.
Proof. rw /pretty_N_char. by repeat case_match. Qed.

Lemma pretty_N_go_digits (x : N) s :
  digitsOnly s = true → digitsOnly (pretty_N_go x s) = true.
Proof.
  revert s. induction (N.lt_wf_0 x) as [x _ IH]; intros s Hs.
  destruct (decide (0 < x)%N) as [Hpos|Hzero].
  - rw pretty_N_go_step //. apply IH; [by apply N.div_lt|].
    by rw /= pretty_N_char_digit.
  - assert (x = 0%N) as -> by lia. by rw pretty_N_go_0.
Qed.

Lemma pretty_N_digits (x : N) : digitsOnly (pretty x) = true.
Proof.
  rw /pretty /pretty_N. case_decide; [done|]. by apply pretty_N_go_digits.
Qed.

(** Two texts made of a run of digits, then the same letter, then a
    rest: equal only if run and rest are. *)
Lemma digits_then_letter (a a' : string) (c : ascii) (rest rest' : string) :
  digitsOnly a = true → digitsOnly a' = true →
  bool_decide (48 ≤ nat_of_ascii c ≤ 57)%nat = false →
  a +:+ String c rest = a' +:+ String c rest' → a = a' ∧ rest = rest'.
Proof.
  intros Ha Ha' Hc. revert a' Ha'. induction a as [|d a IH]; intros [|d' a'] Ha'.
  - rw !append_nil. by intros [= ->].
  - rw append_nil append_cons. intros [= <- _].
    simpl in Ha'. apply andb_true_iff in Ha' as [Hd _]. congruence.
  - rw append_nil append_cons. intros [= -> _].
    simpl in Ha. apply andb_true_iff in Ha as [Hd _]. congruence.
  - rw !append_cons. intros [= -> Heq].
    simpl in Ha, Ha'. apply andb_true_iff in Ha as [_ Ha].
    apply andb_true_iff in Ha' as [_ Ha'].
    destruct (IH Ha a' Ha' Heq) as [-> ->]. done.
Qed.

Lemma uploadId_index now now' (c : ascii) (tag : string) idx idx' :
  bool_decide (48 ≤ nat_of_ascii c ≤ 57)%nat = false →
  uploadId now (String c tag) idx = uploadId now' (String c tag) idx' → idx = idx'.
Proof.
  intros Hc. rw /uploadId /Date_now_toString !append_cons.
  intros [_ Heq]%digits_then_letter; [|apply pretty_N_digits..|done].
  by apply (inj (String.append tag)), (inj pretty) in Heq.
Qed.

Lemma imap_ids_NoDup {A} (g : nat → string) (l : list A) :
  (∀ i j, g i = g j → i = j) → NoDup (imap (λ i _, g i) l).
Proof.
  intros Hinj. rw imap_seq_0. apply NoDup_fmap_2; [|apply NoDup_seq].
  intros i j. apply Hinj.
Qed.

(** X28: the identities an upload gives the entries of a list are
    pairwise distinct, whatever the clock reads while they are made and
    whatever identities the analysis had given them. *)
Theorem uploaded_ids_distinct clock parsedData prev section :
  NoDup (sectionIds section (applyParsed clock parsedData prev)).
Proof.
  destruct section; rw /sectionIds /applyParsed /=.
  - destruct (p_experience parsedData) as [l|]; [|apply NoDup_nil_2].
    rw /= fmap_imap. apply (imap_ids_NoDup (λ i, uploadId (clock experience i) "exp" i)).
    intros i j. by apply uploadId_index.
  - destruct (p_education parsedData) as [l|]; [|apply NoDup_nil_2].
    rw /= fmap_imap. apply (imap_ids_NoDup (λ i, uploadId (clock education i) "edu" i)).
    intros i j. by apply uploadId_index.
  - destruct (p_projects parsedData) as [l|]; [|apply NoDup_nil_2].
    rw /= fmap_imap. apply (imap_ids_NoDup (λ i, uploadId (clock projects i) "proj" i)).
    intros i j. by apply uploadId_index.
Qed.

Lemma imap_content {A B} (f : nat → A → A) (g : A → B) (l : list A) :
  (∀ i a, g (f i a) = g a) → g <$> imap f l = g <$> l.
Proof.
  intros Hsame. rw fmap_imap -(imap_const g). apply imap_ext. intros i a _ =>/=.
  apply Hsame.
Qed.

(** X29: what an upload keeps and what it replaces. The avatar is kept.
    A scalar field the analysis does not give is kept, one it gives is
    taken. Each of the three lists is replaced by the list of the
    analysis, entry by entry with the same content in the same order, and
    is emptied when the analysis gives none. An analysis that returns
    nothing changes nothing and schedules no persist; one that throws
    shows one alert, logs the error and leaves the resume alone. *)
Theorem upload_merges now clock parsedData err s :
  let merged := applyParsed clock parsedData (App.resume s) in
  Resume.avatar merged = Resume.avatar (App.resume s)
  ∧ Resume.fullName merged
    = default (Resume.fullName (App.resume s)) (p_fullName parsedData)
  ∧ sectionContent <$> Resume.experience merged
    = sectionContent <$> default [] (p_experience parsedData)
  ∧ sectionContent <$> Resume.education merged
    = sectionContent <$> default [] (p_education parsedData)
  ∧ projectContent <$> Resume.projects merged
    = projectContent <$> default [] (p_projects parsedData)
  ∧ handleFileUpload now clock (Returned None) s = (None, s)
  ∧ (handleFileUpload now clock (Thrown err) s).1
    = Some "Could not process the resume. Please ensure the file is readable."
  ∧ App.resume (handleFileUpload now clock (Thrown err) s).2 = App.resume s
  ∧ App.timers (handleFileUpload now clock (Thrown err) s).2 = App.timers s.
Proof.
  intros merged. split_and!; try done.
  - rw /merged /applyParsed /=. destruct (p_experience parsedData); [|done].
    by apply imap_content.
  - rw /merged /applyParsed /=. destruct (p_education parsedData); [|done].
    by apply imap_content.
  - rw /merged /applyParsed /=. destruct (p_projects parsedData); [|done].
    by apply imap_content.
Qed.

End Upload.

(** ** The generation wrappers, whatever the answer *)

Section Wrappers.

(** Both generation wrappers hand a non-empty answer of the model
    through unchanged, turn a missing or empty answer into their fixed
    "Could not generate" text and a failed call into their failure
    placeholder; they never throw and never return the empty string. *)
Lemma generation_wrappers_total company role description response :
  (∃ text,
     GeminiService.generateCoverLetter company role description response = Returned text
     ∧ text ≠ ""
     ∧ text = match response with
              | Fulfilled (Some answer) =>
                  if decide (answer = "")
                  then "Could not generate cover letter. Please try again."
                  else answer
              | Fulfilled None => "Could not generate cover letter. Please try again."
              | Rejected _ => failurePlaceholder false
              end)
  ∧ (∃ text,
       GeminiService.generateInterviewGuide company role description response
       = Returned text
       ∧ text ≠ ""
       ∧ text = match response with
                | Fulfilled (Some answer) =>
                    if decide (answer = "")
                    then "Could not generate interview guide. Please try again."
                    else answer
                | Fulfilled None => "Could not generate interview guide. Please try again."
                | Rejected _ => failurePlaceholder true
                end).
Proof.
  split; destruct response as [[answer|]|e]; eexists; (split; [done|]);
    rw /= /or_else /truthy; try done;
    destruct (decide (answer = "")) as [->|Hne]; try done;
    by rw bool_decide_true.
Qed.

End Wrappers.

(** ** The avatar generator: what an answer does to the panel *)

Section AvatarAnswer.

Import AvatarService AvatarGenerator.

Implicit Types (parts pre post : list Part) (st : State).

Lemma elem_of_list_further_r {A} (x y : A) (l : list A) : x ∈ l → x ∈ y :: l.
Proof. intros Hin. apply elem_of_cons. by right. Qed.

Lemma firstImage_None parts : firstImage parts = None ↔ ∀ d, InlineData d ∉ parts.
Proof.
  induction parts as [|[text|d] parts IH]; simpl.
  - split; [|done]. intros _ d. apply not_elem_of_nil.
  - rw IH. split.
    + intros Hnone d [Heq|Hin]%elem_of_cons; [done|]. by apply (Hnone d).
    + intros Hnone d Hin. apply (Hnone d). by right.
  - split; [done|]. intros Hnone. exfalso. apply (Hnone d). by left.
Qed.

Lemma firstImage_Some parts url :
  firstImage parts = Some url →
  ∃ pre d post,
    parts = pre ++ InlineData d :: post
    ∧ (∀ d', InlineData d' ∉ pre)
    ∧ url = "data:image/png;base64," +:+ d.
Proof.
  induction parts as [|[text|d] parts IH]; simpl; [done|..].
  - intros (pre & d & post & -> & Hpre & ->)%IH.
    exists (TextPart text :: pre), d, post. split_and!; [done| |done].
    intros d' [Heq|Hin]%elem_of_cons; [done|]. by apply (Hpre d').
  - intros [= <-]. exists [], d, parts. split_and!; [done| |done].
    intros d'. apply not_elem_of_nil.
Qed.

(** X30: with a picture selected, a generation ends with the spinner
    off and the attached mark down, and keeps the selected picture. From
    an answer it shows the first image part, as a PNG data URL whatever
    type was sent; from an answer without an image part it clears the
    picture shown before and raises no alert; from a failed call it keeps
    the picture shown before and raises one alert. *)
Theorem handleGenerate_outcomes response st :
  JobTracker.opt_truthy (selectedImage st) = true →
  let after := handleGenerate response st in
  loading after = false
  ∧ attached after = false
  ∧ selectedImage after = selectedImage st
  ∧ match response with
    | Fulfilled parts =>
        alerts after = alerts st
        ∧ ((∀ d, InlineData d ∉ parts) → generatedImage after = None)
        ∧ (∀ pre d post,
             parts = pre ++ InlineData d :: post →
             (∀ d', InlineData d' ∉ pre) →
             generatedImage after = Some ("data:image/png;base64," +:+ d))
    | Rejected e =>
        alerts after = alerts st ++ ["Failed to generate image. Please try again."]
        ∧ generatedImage after = generatedImage st
    end.
Proof.
  intros Hsel after. rw /after /handleGenerate Hsel /=.
  destruct response as [parts|e]; simpl; [|done].
  split_and!; try done.
  - intros Hnone. by apply firstImage_None.
  - intros pre d post -> Hpre.
    destruct (firstImage (pre ++ InlineData d :: post)) as [url|] eqn:Hfirst.
    + apply firstImage_Some in Hfirst as (pre' & d' & post' & Heq & Hpre' & ->).
      do 2 f_equal.
      assert (Hsame : pre = pre' ∧ d = d'); [|by destruct Hsame].
      clear -Heq Hpre Hpre'. revert pre' Heq Hpre'.
      induction pre as [|p pre IH]; intros [|p' pre'] Heq Hpre'.
      * by simplify_eq/=.
      * simplify_eq/=. exfalso. apply (Hpre' d). by left.
      * simplify_eq/=. exfalso. apply (Hpre d'). by left.
      * injection Heq as -> Heq.
        destruct (IH (λ d0 Hin, Hpre d0 (elem_of_list_further_r _ _ _ Hin))
                    pre' Heq
                    (λ d0 Hin, Hpre' d0 (elem_of_list_further_r _ _ _ Hin)))
          as [-> ->]. done.
    + exfalso. apply (proj1 (firstImage_None _) Hfirst d).
      apply elem_of_app. right. by left.
Qed.

Lemma handleGenerate_outcomes_witness :
  generatedImage
    (handleGenerate (Fulfilled [TextPart "Here it is"; InlineData "QUJD"; InlineData "REVG"])
       (mkState "" (Some "data:image/jpeg;base64,AAAA") None false false []))
  = Some "data:image/png;base64,QUJD".
Proof.
  apply (handleGenerate_outcomes
           (Fulfilled [TextPart "Here it is"; InlineData "QUJD"; InlineData "REVG"])
           (mkState "" (Some "data:image/jpeg;base64,AAAA") None false false [])
           eq_refl) with (pre := [TextPart "Here it is"]) (post := [InlineData "REVG"]).
  - done.
  - intros d' [Heq|Hin]%elem_of_cons; [done|by apply elem_of_nil in Hin].
Defined.

(** Without a picture selected nothing happens. *)
Lemma handleGenerate_without_image response st :
  JobTracker.opt_truthy (selectedImage st) = false → handleGenerate response st = st.
Proof. intros Hnone. by rw /handleGenerate Hnone. Qed.

End AvatarAnswer.
